(** * objconv: the Parser protocol and the in-memory ValueParser (parse.go)

    A shallow embedding of [ValueParser], the reference parser that walks a
    Go value through the [reflect] package, together with the part of
    [reflect] that the parser calls.

    Conventions.
    - A Go call that panics is the result [Panic]; a call that returns is
      [Ok].  Methods of [*ValueParser] are computations in the monad [M],
      which threads the parser (its two slices) and propagates panics.
    - Go values are finite trees: a pointer is modelled by what it points
      to, so every modelled value graph is acyclic.  The parser only reads
      the values, so sharing between sub-values is not observable.  The
      model has no addresses; of what depends on them it keeps the
      addressable flag of an array, which [Bytes] reads (see
      [reflect.Value]), and it states what it proves of map lookup for
      keys that Go compares by value (see [reflect.Value_eqb]).
    - Values are those a caller can read: the read-only flag of values
      reached through unexported fields is not modelled, so [Interface()]
      panics on the zero Value only; map keys handed to [MapIndex] are keys
      of that map.
    - Go's [int] is a 64-bit integer; [int_wrap] writes out the wrap-around
      of the two [++] statements of the file. *)

From Stdlib Require Import ZArith List String Ascii Bool Lia.
Import ListNotations.
Local Open Scope Z_scope.
Local Open Scope list_scope.

Set Implicit Arguments.
Set Warnings "-register-all".

(** ** Results of calls that may panic *)

Inductive Res (A : Type) : Type :=
| Ok (a : A)
| Panic.
Arguments Ok {A} a.
Arguments Panic {A}.

Definition res_bind {A B : Type} (r : Res A) (k : A -> Res B) : Res B :=
  match r with
  | Ok a => k a
  | Panic => Panic
  end.

(** Go's [int] on a 64-bit platform. *)
Definition int_wrap (z : Z) : Z := (z + 2 ^ 63) mod 2 ^ 64 - 2 ^ 63.

(** [s[i]] on a Go slice: a run-time panic when [i] is out of range. *)
Definition slice_index {A : Type} (s : list A) (i : Z) : Res A :=
  if (0 <=? i) && (i <? Z.of_nat (List.length s)) then
    match nth_error s (Z.to_nat i) with
    | Some a => Ok a
    | None => Panic
    end
  else Panic.

(** The last element of a slice, [s[len(s)-1]]. *)
Fixpoint slice_last {A : Type} (s : list A) : Res A :=
  match s with
  | [] => Panic
  | [a] => Ok a
  | _ :: s' => slice_last s'
  end.

(** ** The part of package reflect used by the parser *)

Module reflect.

Inductive Kind : Set :=
| Invalid
| Bool
| Int | Int8 | Int16 | Int32 | Int64
| Uint | Uint8 | Uint16 | Uint32 | Uint64 | Uintptr
| Float32 | Float64
| Complex64 | Complex128
| Array | Chan | Func | Interface | Map | Ptr | Slice | String | Struct
| UnsafePointer.

Scheme Equality for Kind.

(** A type as the parser sees it: its printed form ([String()]), its kind,
    whether its method set has [Error() string] (so that it implements the
    [error] interface), its element type where it has one, and the length
    of an array type (0 for a type of another kind). *)
Inductive rtype : Type :=
| MkType (str : string) (kind : Kind) (implements_error : bool)
         (elem : option rtype) (len : nat).

Definition Type_String (t : rtype) : string :=
  match t with MkType s _ _ _ _ => s end.

Definition Type_Kind (t : rtype) : Kind :=
  match t with MkType _ k _ _ _ => k end.

Definition Type_implements_error (t : rtype) : bool :=
  match t with MkType _ _ e _ _ => e end.

(** [t.Elem()] panics unless the type is an array, channel, map, pointer
    or slice type. *)
Definition Type_Elem (t : rtype) : Res rtype :=
  match t with
  | MkType _ (Array | Chan | Map | Ptr | Slice) _ (Some e) _ => Ok e
  | _ => Panic
  end.

(** [t.Len()] panics unless the type is an array type. *)
Definition Type_Len (t : rtype) : Res Z :=
  match t with
  | MkType _ Array _ _ n => Ok (Z.of_nat n)
  | _ => Panic
  end.

(** Identity of types. *)
Fixpoint rtype_eqb (a b : rtype) : bool :=
  match a, b with
  | MkType s k e el n, MkType s' k' e' el' n' =>
      String.eqb s s' && Kind_beq k k' && Bool.eqb e e' &&
      match el, el' with
      | Some x, Some y => rtype_eqb x y
      | None, None => true
      | _, _ => false
      end && Nat.eqb n n'
  end.

(** What a value stores about its own type besides its kind. *)
Record tinfo : Type := MkInfo {
  ti_str : string;
  ti_error : bool
}.

Inductive IntKind : Set := IInt | IInt8 | IInt16 | IInt32 | IInt64.
Inductive UintKind : Set :=
  UUint | UUint8 | UUint16 | UUint32 | UUint64 | UUintptr.
Inductive FloatKind : Set := FFloat32 | FFloat64.
(** Kinds whose contents the parser never reads. *)
Inductive OpaqueKind : Set :=
  OComplex64 | OComplex128 | OChan | OFunc | OUnsafePointer.

Definition int_kind (k : IntKind) : Kind :=
  match k with
  | IInt => Int | IInt8 => Int8 | IInt16 => Int16 | IInt32 => Int32
  | IInt64 => Int64
  end.

Definition uint_kind (k : UintKind) : Kind :=
  match k with
  | UUint => Uint | UUint8 => Uint8 | UUint16 => Uint16 | UUint32 => Uint32
  | UUint64 => Uint64 | UUintptr => Uintptr
  end.

Definition float_kind (k : FloatKind) : Kind :=
  match k with FFloat32 => Float32 | FFloat64 => Float64 end.

Definition opaque_kind (k : OpaqueKind) : Kind :=
  match k with
  | OComplex64 => Complex64 | OComplex128 => Complex128 | OChan => Chan
  | OFunc => Func | OUnsafePointer => UnsafePointer
  end.

(** A [reflect.Value].  [VInvalid] is the zero Value.  A float carries the
    bit pattern of its float64 value.  The [isnil] flags tell a nil slice,
    map, channel, func or unsafe pointer from an empty one; [len] of an
    opaque value is the number of elements queued in a channel.

    [addr] of an array is the flag that reflect keeps in the Value and
    [CanAddr] reports: it is set when the array is what a pointer points
    to, an element of a slice, or an element or field of an addressable
    array or struct, and it is not set on what [ValueOf], [MapKeys],
    [MapIndex] or the [Elem] of an interface return.  A position of the
    tree is reached by one chain of such calls only, so the tree of a Go
    value holds each of its arrays with the flag of that chain. *)
Inductive Value : Type :=
| VInvalid
| VBool (t : tinfo) (b : bool)
| VInt (k : IntKind) (t : tinfo) (i : Z)
| VUint (k : UintKind) (t : tinfo) (u : Z)
| VFloat (k : FloatKind) (t : tinfo) (bits : Z)
| VString (t : tinfo) (s : string)
| VSlice (t : tinfo) (elem : rtype) (isnil : bool) (l : list Value)
| VArray (t : tinfo) (elem : rtype) (addr : bool) (l : list Value)
| VMap (t : tinfo) (elem : rtype) (isnil : bool) (m : list (Value * Value))
| VStruct (t : tinfo) (fs : list Value)
| VPtr (t : tinfo) (elem : rtype) (target : option Value)
| VInterface (t : tinfo) (dyn : option Value)
| VOpaque (k : OpaqueKind) (t : tinfo) (isnil : bool) (len : nat).

(** A Go [interface{}]: nil, or a dynamic value. *)
Definition any : Type := option Value.

Definition Value_IsValid (v : Value) : bool :=
  match v with VInvalid => false | _ => true end.

Definition Value_Kind (v : Value) : Kind :=
  match v with
  | VInvalid => Invalid
  | VBool _ _ => Bool
  | VInt k _ _ => int_kind k
  | VUint k _ _ => uint_kind k
  | VFloat k _ _ => float_kind k
  | VString _ _ => String
  | VSlice _ _ _ _ => Slice
  | VArray _ _ _ _ => Array
  | VMap _ _ _ _ => Map
  | VStruct _ _ => Struct
  | VPtr _ _ _ => Ptr
  | VInterface _ _ => Interface
  | VOpaque k _ _ _ => opaque_kind k
  end.

Definition mk_type (t : tinfo) (k : Kind) (elem : option rtype) : rtype :=
  MkType (ti_str t) k (ti_error t) elem 0.

Definition array_type (t : tinfo) (elem : rtype) (n : nat) : rtype :=
  MkType (ti_str t) Array (ti_error t) (Some elem) n.

(** [v.Type()] panics on the zero Value. *)
Definition Value_Type (v : Value) : Res rtype :=
  match v with
  | VInvalid => Panic
  | VBool t _ => Ok (mk_type t Bool None)
  | VInt k t _ => Ok (mk_type t (int_kind k) None)
  | VUint k t _ => Ok (mk_type t (uint_kind k) None)
  | VFloat k t _ => Ok (mk_type t (float_kind k) None)
  | VString t _ => Ok (mk_type t String None)
  | VSlice t e _ _ => Ok (mk_type t Slice (Some e))
  | VArray t e _ l => Ok (array_type t e (List.length l))
  | VMap t e _ _ => Ok (mk_type t Map (Some e))
  | VStruct t _ => Ok (mk_type t Struct None)
  | VPtr t e _ => Ok (mk_type t Ptr (Some e))
  | VInterface t _ => Ok (mk_type t Interface None)
  | VOpaque k t _ _ => Ok (mk_type t (opaque_kind k) None)
  end.

(** [reflect.ValueOf(i)]: the zero Value for a nil interface. *)
Definition ValueOf (i : any) : Value :=
  match i with
  | None => VInvalid
  | Some v => v
  end.

(** [v.Interface()]: panics on the zero Value; for a value of kind
    Interface it is the interface itself (nil, or its dynamic value). *)
Definition Value_Interface (v : Value) : Res any :=
  match v with
  | VInvalid => Panic
  | VInterface _ d => Ok d
  | _ => Ok (Some v)
  end.

(** [reflect.TypeOf(i)]: the dynamic type, nil for a nil interface. *)
Definition TypeOf (i : any) : option rtype :=
  match i with
  | None => None
  | Some v => match Value_Type v with Ok t => Some t | Panic => None end
  end.

(** [v.IsNil()] panics unless the kind is Chan, Func, Interface, Map, Ptr,
    Slice or UnsafePointer. *)
Definition Value_IsNil (v : Value) : Res bool :=
  match v with
  | VSlice _ _ n _ => Ok n
  | VMap _ _ n _ => Ok n
  | VPtr _ _ None => Ok true
  | VPtr _ _ (Some _) => Ok false
  | VInterface _ None => Ok true
  | VInterface _ (Some _) => Ok false
  | VOpaque (OChan | OFunc | OUnsafePointer) _ n _ => Ok n
  | _ => Panic
  end.

(** [v.Elem()] panics unless the kind is Interface or Ptr; on a nil one it
    is the zero Value. *)
Definition Value_Elem (v : Value) : Res Value :=
  match v with
  | VPtr _ _ (Some e) => Ok e
  | VPtr _ _ None => Ok VInvalid
  | VInterface _ (Some e) => Ok e
  | VInterface _ None => Ok VInvalid
  | _ => Panic
  end.

(** [v.Len()] panics unless the kind is Array, Chan, Map, Slice or
    String, or the value is a pointer to an array: of such a pointer, nil
    or not, it is the length of the array type. *)
Definition Value_Len (v : Value) : Res Z :=
  match v with
  | VString _ s => Ok (Z.of_nat (String.length s))
  | VSlice _ _ _ l => Ok (Z.of_nat (List.length l))
  | VArray _ _ _ l => Ok (Z.of_nat (List.length l))
  | VMap _ _ _ m => Ok (Z.of_nat (List.length m))
  | VOpaque OChan _ _ n => Ok (Z.of_nat n)
  | VPtr _ e _ =>
      match Type_Kind e with
      | Array => Type_Len e
      | _ => Panic
      end
  | _ => Panic
  end.

Definition uint8_info : tinfo := MkInfo "uint8" false.
Definition string_info : tinfo := MkInfo "string" false.

(** [v.Index(i)] panics unless the kind is Array, Slice or String, and
    when [i] is out of range; on a string it is the byte at [i]. *)
Definition Value_Index (v : Value) (i : Z) : Res Value :=
  match v with
  | VSlice _ _ _ l => slice_index l i
  | VArray _ _ _ l => slice_index l i
  | VString _ s =>
      if (0 <=? i) && (i <? Z.of_nat (String.length s)) then
        match String.get (Z.to_nat i) s with
        | Some c => Ok (VUint UUint8 uint8_info (Z.of_nat (nat_of_ascii c)))
        | None => Panic
        end
      else Panic
  | _ => Panic
  end.

Definition list_eqb {A : Type} (eqb : A -> A -> bool) :=
  fix go (l l' : list A) : bool :=
    match l, l' with
    | [], [] => true
    | x :: xs, y :: ys => eqb x y && go xs ys
    | _, _ => false
    end.

Definition IntKind_eqb (a b : IntKind) : bool :=
  Kind_beq (int_kind a) (int_kind b).
Definition UintKind_eqb (a b : UintKind) : bool :=
  Kind_beq (uint_kind a) (uint_kind b).
Definition FloatKind_eqb (a b : FloatKind) : bool :=
  Kind_beq (float_kind a) (float_kind b).
Definition OpaqueKind_eqb (a b : OpaqueKind) : bool :=
  Kind_beq (opaque_kind a) (opaque_kind b).
Definition tinfo_eqb (a b : tinfo) : bool :=
  String.eqb (ti_str a) (ti_str b) && Bool.eqb (ti_error a) (ti_error b).

(** [==] on two floats given by their IEEE 754 bit patterns: a NaN is
    equal to nothing, itself included, and the two zeros are equal. *)
Definition float_is_nan (bits : Z) : bool :=
  (Z.land (Z.shiftr bits 52) 2047 =? 2047) &&
  negb (Z.land bits (2 ^ 52 - 1) =? 0).

Definition float_is_zero (bits : Z) : bool :=
  Z.land bits (2 ^ 63 - 1) =? 0.

Definition float_eqb (x y : Z) : bool :=
  negb (float_is_nan x) && negb (float_is_nan y) &&
  ((x =? y) || (float_is_zero x && float_is_zero y)).

(** Equality of map keys ([==] on the keys).  It is Go's [==] on the keys
    that Go compares by their value alone and that the model holds in
    full: booleans, integers, floats and strings.  The model has no
    addresses and does not hold the contents of the opaque kinds, so
    pointers are compared by what they point to and channels and complex
    numbers by what the model holds of them, which can equate two keys
    that Go tells apart; what is proved of map lookup is therefore stated
    for keys of the first kind.  The [addr] flag of an array is no part
    of its value. *)
Fixpoint Value_eqb (a b : Value) : bool :=
  match a, b with
  | VInvalid, VInvalid => true
  | VBool t x, VBool t' y => tinfo_eqb t t' && Bool.eqb x y
  | VInt k t x, VInt k' t' y => IntKind_eqb k k' && tinfo_eqb t t' && (x =? y)
  | VUint k t x, VUint k' t' y =>
      UintKind_eqb k k' && tinfo_eqb t t' && (x =? y)
  | VFloat k t x, VFloat k' t' y =>
      FloatKind_eqb k k' && tinfo_eqb t t' && float_eqb x y
  | VString t x, VString t' y => tinfo_eqb t t' && String.eqb x y
  | VSlice t e n l, VSlice t' e' n' l' =>
      tinfo_eqb t t' && rtype_eqb e e' && Bool.eqb n n' &&
      list_eqb Value_eqb l l'
  | VArray t e _ l, VArray t' e' _ l' =>
      tinfo_eqb t t' && rtype_eqb e e' && list_eqb Value_eqb l l'
  | VMap t e n m, VMap t' e' n' m' =>
      tinfo_eqb t t' && rtype_eqb e e' && Bool.eqb n n' &&
      list_eqb (fun x y => Value_eqb (fst x) (fst y) &&
                           Value_eqb (snd x) (snd y)) m m'
  | VStruct t l, VStruct t' l' => tinfo_eqb t t' && list_eqb Value_eqb l l'
  | VPtr t e x, VPtr t' e' y =>
      tinfo_eqb t t' && rtype_eqb e e' &&
      match x, y with
      | Some u, Some w => Value_eqb u w
      | None, None => true
      | _, _ => false
      end
  | VInterface t x, VInterface t' y =>
      tinfo_eqb t t' &&
      match x, y with
      | Some u, Some w => Value_eqb u w
      | None, None => true
      | _, _ => false
      end
  | VOpaque k t n c, VOpaque k' t' n' c' =>
      OpaqueKind_eqb k k' && tinfo_eqb t t' && Bool.eqb n n' && Nat.eqb c c'
  | _, _ => false
  end.

(** [v.MapKeys()] panics unless the kind is Map; the result is a fresh,
    non-nil slice of the keys in the enumeration order of the map. *)
Definition Value_MapKeys (v : Value) : Res (list Value) :=
  match v with
  | VMap _ _ _ m => Ok (List.map fst m)
  | _ => Panic
  end.

Fixpoint map_lookup (m : list (Value * Value)) (k : Value) : Value :=
  match m with
  | [] => VInvalid
  | (k', e) :: m' => if Value_eqb k' k then e else map_lookup m' k
  end.

(** [v.MapIndex(k)] panics unless the kind is Map; it is the zero Value
    when the key is absent. *)
Definition Value_MapIndex (v k : Value) : Res Value :=
  match v with
  | VMap _ _ _ m => Ok (map_lookup m k)
  | _ => Panic
  end.

(** [v.Field(i)] panics unless the kind is Struct and [i] is in range. *)
Definition Value_Field (v : Value) (i : Z) : Res Value :=
  match v with
  | VStruct _ fs => slice_index fs i
  | _ => Panic
  end.

(** The loop of [FieldByIndex]: after the first step, a pointer to an
    embedded struct is followed, and a nil one panics. *)
Fixpoint field_path (first : bool) (v : Value) (index : list Z) : Res Value :=
  match index with
  | [] => Ok v
  | x :: rest =>
      res_bind
        (if first then Ok v
         else match v with
              | VPtr _ (MkType _ Struct _ _ _) (Some e) => Ok e
              | VPtr _ (MkType _ Struct _ _ _) None => Panic
              | _ => Ok v
              end)
        (fun v1 => res_bind (Value_Field v1 x)
                     (fun f => field_path false f rest))
  end.

(** [v.FieldByIndex(index)] panics unless the kind is Struct. *)
Definition Value_FieldByIndex (v : Value) (index : list Z) : Res Value :=
  match v with
  | VStruct _ _ => field_path true v index
  | _ => Panic
  end.

Definition Value_Bool (v : Value) : Res bool :=
  match v with VBool _ b => Ok b | _ => Panic end.

Definition Value_Int (v : Value) : Res Z :=
  match v with VInt _ _ i => Ok i | _ => Panic end.

Definition Value_Uint (v : Value) : Res Z :=
  match v with VUint _ _ u => Ok u | _ => Panic end.

Definition Value_Float (v : Value) : Res Z :=
  match v with VFloat _ _ f => Ok f | _ => Panic end.

(** [v.String()] never panics: on a value that is not a string it is the
    text "<T Value>" for the type T of the value. *)
Definition Value_String (v : Value) : string :=
  match v with
  | VString _ s => s
  | VInvalid => "<invalid Value>"
  | _ => match Value_Type v with
         | Ok t => String.append "<" (String.append (Type_String t) " Value>")
         | Panic => "<invalid Value>"
         end
  end.

Fixpoint bytes_of (l : list Value) : Res (list Z) :=
  match l with
  | [] => Ok []
  | x :: l' =>
      res_bind (Value_Uint x)
        (fun b => res_bind (bytes_of l') (fun bs => Ok (b :: bs)))
  end.

(** [v.Bytes()] panics unless the value is a slice of bytes or an
    addressable array of bytes. *)
Definition Value_Bytes (v : Value) : Res (list Z) :=
  match v with
  | VSlice _ (MkType _ Uint8 _ _ _) _ l => bytes_of l
  | VArray _ (MkType _ Uint8 _ _ _) true l => bytes_of l
  | _ => Panic
  end.

End reflect.

(** ** Packages time and errors *)

Module time.

(** [time.Time] is a struct type and [time.Duration] an int64; neither has
    an [Error] method.  A type switch recognises them by identity. *)
Definition Time : reflect.rtype :=
  reflect.MkType "time.Time" reflect.Struct false None 0.
Definition Duration : reflect.rtype :=
  reflect.MkType "time.Duration" reflect.Int64 false None 0.

End time.

(** A Go [error] result: nil, or an error made by [errors.New]. *)
Definition error : Type := option string.

Module errors.
Definition New (text : string) : error := Some text.
End errors.

(** ** Declarations of the package that parse.go uses *)

(** The type vocabulary of the protocol ([objconv.Type]); parse.go names
    these twelve constants. *)
Inductive Type_ : Set :=
| Nil | Bool | Int | Uint | Float | String | Bytes | Time | Duration | Error
| Array | Map.

(** Modelled from the spec: the field metadata that [LookupStruct] returns;
    the declaration of [StructField] is not in parse.go.  Only the two
    members parse.go reads are kept: the index path handed to
    [FieldByIndex] and the field name. *)
Record StructField : Type := {
  Index : list Z;
  Name : string
}.

Record Struct : Type := {
  Fields : list StructField
}.

(** ** The ValueParser *)

Record valueParserContext : Type := {
  ctx_index : Z;
  ctx_length : Z;
  ctx_value : reflect.Value;
  ctx_keys : option (list reflect.Value);
  ctx_fields : list StructField
}.

Record ValueParser : Type := {
  stack : list reflect.Value;
  ctx : list valueParserContext
}.

(** A method of [*ValueParser]: it may panic, and otherwise returns a
    result and the parser as the call leaves it. *)
Definition M (A : Type) : Type := ValueParser -> Res (A * ValueParser).

Definition ret {A : Type} (a : A) : M A := fun p => Ok (a, p).

Definition bind {A B : Type} (m : M A) (k : A -> M B) : M B :=
  fun p =>
    match m p with
    | Ok (a, p') => k a p'
    | Panic => Panic
    end.

Definition lift {A : Type} (r : Res A) : M A :=
  fun p =>
    match r with
    | Ok a => Ok (a, p)
    | Panic => Panic
    end.

Declare Scope parser_scope.
Delimit Scope parser_scope with parser.
Notation "x <- m ;; k" := (bind m (fun x => k))
  (at level 61, m at next level, right associativity) : parser_scope.
Notation "m ;; k" := (bind m (fun _ => k))
  (at level 61, right associativity) : parser_scope.
Local Open Scope parser_scope.

Definition nil_error : error := None.

Definition NewValueParser (v : reflect.any) : ValueParser :=
  {| stack := [reflect.ValueOf v]; ctx := [] |}.

Definition push (v : reflect.Value) : M unit :=
  fun p => Ok (tt, {| stack := stack p ++ [v]; ctx := ctx p |}).

(** [p.stack[:len(p.stack)-1]] panics on an empty stack. *)
Definition pop : M unit :=
  fun p =>
    match stack p with
    | [] => Panic
    | _ => Ok (tt, {| stack := removelast (stack p); ctx := ctx p |})
    end.

Definition pushContext (c : valueParserContext) : M unit :=
  fun p => Ok (tt, {| stack := stack p; ctx := ctx p ++ [c] |}).

Definition popContext : M unit :=
  fun p =>
    match ctx p with
    | [] => Panic
    | _ => Ok (tt, {| stack := stack p; ctx := removelast (ctx p) |})
    end.

(** [p.context()] is a pointer to the last context; reading through it is
    [context], and the one write the file makes through it, [ctx.index++],
    is [context_index_incr], which also returns the context as updated. *)
Definition context : M valueParserContext :=
  fun p => lift (slice_last (ctx p)) p.

Definition incr_index (c : valueParserContext) : valueParserContext :=
  {| ctx_index := int_wrap (ctx_index c + 1);
     ctx_length := ctx_length c;
     ctx_value := ctx_value c;
     ctx_keys := ctx_keys c;
     ctx_fields := ctx_fields c |}.

Definition context_index_incr : M valueParserContext :=
  fun p =>
    match slice_last (ctx p) with
    | Ok c =>
        Ok (incr_index c,
            {| stack := stack p; ctx := removelast (ctx p) ++ [incr_index c] |})
    | Panic => Panic
    end.

(** The type switches of the file. *)
Definition is_type (i : reflect.any) (t : reflect.rtype) : bool :=
  match reflect.TypeOf i with
  | Some t' => reflect.rtype_eqb t' t
  | None => false
  end.

Definition is_error (i : reflect.any) : bool :=
  match reflect.TypeOf i with
  | Some t' => reflect.Type_implements_error t'
  | None => false
  end.

(** The type assertions [i.(T)] and [i.(error)], which panic on failure. *)
Definition assert_type (i : reflect.any) (t : reflect.rtype)
  : Res reflect.Value :=
  match i with
  | Some v => if is_type i t then Ok v else Panic
  | None => Panic
  end.

Definition assert_error (i : reflect.any) : Res reflect.Value :=
  match i with
  | Some v => if is_error i then Ok v else Panic
  | None => Panic
  end.

(** The loop at the label [dereference]: while the value is a non-nil
    interface or pointer, go to its element. *)
Fixpoint dereference (v : reflect.Value) : reflect.Value :=
  match v with
  | reflect.VPtr _ _ (Some e) => dereference e
  | reflect.VInterface _ (Some e) => dereference e
  | _ => v
  end.

Definition value : M reflect.Value :=
  v <- (fun p => lift (slice_last (stack p)) p) ;;
  if negb (reflect.Value_IsValid v) then ret v
  else
    i <- lift (reflect.Value_Interface v) ;;
    if is_error i then ret v
    else ret (dereference v).

Definition unsupported (v : reflect.Value) : M (Type_ * error) :=
  t <- lift (reflect.Value_Type v) ;;
  ret (Nil,
       errors.New
         (String.append "objconv: unsupported type found in value parser: "
            (reflect.Type_String t))).

Definition ParseType : M (Type_ * error) :=
  v <- value ;;
  if negb (reflect.Value_IsValid v) then ret (Nil, nil_error)
  else
    i <- lift (reflect.Value_Interface v) ;;
    if is_type i time.Time then ret (Time, nil_error)
    else if is_type i time.Duration then ret (Duration, nil_error)
    else if is_error i then ret (Error, nil_error)
    else
      match reflect.Value_Kind v with
      | reflect.Bool => ret (Bool, nil_error)
      | reflect.Int | reflect.Int8 | reflect.Int16 | reflect.Int32
      | reflect.Int64 => ret (Int, nil_error)
      | reflect.Uint | reflect.Uint8 | reflect.Uint16 | reflect.Uint32
      | reflect.Uint64 | reflect.Uintptr => ret (Uint, nil_error)
      | reflect.Float32 | reflect.Float64 => ret (Float, nil_error)
      | reflect.String => ret (String, nil_error)
      | reflect.Slice =>
          t <- lift (reflect.Value_Type v) ;;
          e <- lift (reflect.Type_Elem t) ;;
          if reflect.Kind_beq (reflect.Type_Kind e) reflect.Uint8
          then ret (Bytes, nil_error)
          else ret (Array, nil_error)
      | reflect.Array => ret (Array, nil_error)
      | reflect.Map => ret (Map, nil_error)
      | reflect.Struct => ret (Map, nil_error)
      | reflect.Interface =>
          n <- lift (reflect.Value_IsNil v) ;;
          if n then ret (Nil, nil_error) else unsupported v
      | _ => unsupported v
      end.

Definition ParseNil : M error := ret nil_error.

Definition ParseBool : M (bool * error) :=
  x <- value ;; v <- lift (reflect.Value_Bool x) ;; ret (v, nil_error).

Definition ParseInt : M (Z * error) :=
  x <- value ;; v <- lift (reflect.Value_Int x) ;; ret (v, nil_error).

Definition ParseUint : M (Z * error) :=
  x <- value ;; v <- lift (reflect.Value_Uint x) ;; ret (v, nil_error).

Definition ParseFloat : M (Z * error) :=
  x <- value ;; v <- lift (reflect.Value_Float x) ;; ret (v, nil_error).

Definition ParseString : M (string * error) :=
  x <- value ;; ret (reflect.Value_String x, nil_error).

Definition ParseBytes : M (list Z * error) :=
  x <- value ;; v <- lift (reflect.Value_Bytes x) ;; ret (v, nil_error).

Definition ParseTime : M (reflect.Value * error) :=
  x <- value ;;
  i <- lift (reflect.Value_Interface x) ;;
  v <- lift (assert_type i time.Time) ;;
  ret (v, nil_error).

Definition ParseDuration : M (Z * error) :=
  x <- value ;;
  i <- lift (reflect.Value_Interface x) ;;
  d <- lift (assert_type i time.Duration) ;;
  v <- lift (reflect.Value_Int d) ;;
  ret (v, nil_error).

Definition ParseError : M (reflect.Value * error) :=
  x <- value ;;
  i <- lift (reflect.Value_Interface x) ;;
  v <- lift (assert_error i) ;;
  ret (v, nil_error).

Definition new_context (n : Z) (v : reflect.Value)
    (k : option (list reflect.Value)) (f : list StructField)
  : valueParserContext :=
  {| ctx_index := 0; ctx_length := n; ctx_value := v; ctx_keys := k;
     ctx_fields := f |}.

Definition ParseArrayBegin : M (Z * error) :=
  v <- value ;;
  n <- lift (reflect.Value_Len v) ;;
  pushContext (new_context n v None []) ;;
  (if n =? 0 then ret tt
   else e <- lift (reflect.Value_Index v 0) ;; push e) ;;
  ret (n, nil_error).

Definition ParseArrayEnd : M error :=
  c <- context ;;
  (if ctx_length c =? 0 then ret tt else pop) ;;
  popContext ;;
  ret nil_error.

Definition ParseArrayNext : M error :=
  c <- context_index_incr ;;
  pop ;;
  e <- lift (reflect.Value_Index (ctx_value c) (ctx_index c)) ;;
  push e ;;
  ret nil_error.

Definition ParseMapEnd : M error :=
  c <- context ;;
  (if ctx_length c =? 0 then ret tt else pop) ;;
  popContext ;;
  ret nil_error.

Definition string_value (s : string) : reflect.Value :=
  reflect.ValueOf (Some (reflect.VString reflect.string_info s)).

Definition ParseMapValue : M error :=
  c <- context ;;
  pop ;;
  match ctx_keys c with
  | Some keys =>
      k <- lift (slice_index keys (ctx_index c)) ;;
      e <- lift (reflect.Value_MapIndex (ctx_value c) k) ;;
      push e
  | None =>
      f <- lift (slice_index (ctx_fields c) (ctx_index c)) ;;
      e <- lift (reflect.Value_FieldByIndex (ctx_value c) (Index f)) ;;
      push e
  end ;;
  ret nil_error.

Definition ParseMapNext : M error :=
  c <- context_index_incr ;;
  pop ;;
  match ctx_keys c with
  | Some keys =>
      k <- lift (slice_index keys (ctx_index c)) ;;
      push k
  | None =>
      f <- lift (slice_index (ctx_fields c) (ctx_index c)) ;;
      push (string_value (Name f))
  end ;;
  ret nil_error.

Section Collaborators.

(** [LookupStruct] and [omit] are declared elsewhere in the package: the
    field metadata of a struct type, and the predicate that omits a field
    of a given value. *)
Variable LookupStruct : reflect.rtype -> Struct.
Variable omit : StructField -> reflect.Value -> bool.

(** The [range s.Fields] loop of [ParseMapBegin], from the fields kept so
    far and the count so far. *)
Fixpoint range_fields (v : reflect.Value) (fs : list StructField)
    (kept : list StructField) (n : Z) : Res (list StructField * Z) :=
  match fs with
  | [] => Ok (kept, n)
  | f :: rest =>
      res_bind (reflect.Value_FieldByIndex v (Index f))
        (fun fv =>
           if negb (omit f fv)
           then range_fields v rest (kept ++ [f]) (int_wrap (n + 1))
           else range_fields v rest kept n)
  end.

Definition ParseMapBegin : M (Z * error) :=
  v <- value ;;
  if reflect.Kind_beq (reflect.Value_Kind v) reflect.Map then
    n <- lift (reflect.Value_Len v) ;;
    k <- lift (reflect.Value_MapKeys v) ;;
    pushContext (new_context n v (Some k) []) ;;
    (if n =? 0 then ret tt
     else k0 <- lift (slice_index k 0) ;; push k0) ;;
    ret (n, nil_error)
  else
    t <- lift (reflect.Value_Type v) ;;
    r <- lift (range_fields v (Fields (LookupStruct t)) [] 0) ;;
    pushContext (new_context 0 v None (fst r)) ;;
    (if snd r =? 0 then ret tt
     else f0 <- lift (slice_index (fst r) 0) ;;
          push (string_value (Name f0))) ;;
    ret (snd r, nil_error).

End Collaborators.

(** ** The calls of the protocol and the traversals of a decoder *)

(** The ten scalar getters of the [Parser] interface, what each returns
    next to its error result, and the Type a decoder checks for before it
    calls one. *)
Inductive Getter : Set :=
| GetNil | GetBool | GetInt | GetUint | GetFloat | GetString | GetBytes
| GetTime | GetDuration | GetError.

Inductive Scalar : Type :=
| SNil
| SBool (b : bool)
| SInt (i : Z)
| SUint (u : Z)
| SFloat (bits : Z)
| SString (s : string)
| SBytes (b : list Z)
| STime (t : reflect.Value)
| SDuration (d : Z)
| SError (e : reflect.Value).

Definition call_getter (g : Getter) : M (Scalar * error) :=
  match g with
  | GetNil => e <- ParseNil ;; ret (SNil, e)
  | GetBool => r <- ParseBool ;; ret (SBool (fst r), snd r)
  | GetInt => r <- ParseInt ;; ret (SInt (fst r), snd r)
  | GetUint => r <- ParseUint ;; ret (SUint (fst r), snd r)
  | GetFloat => r <- ParseFloat ;; ret (SFloat (fst r), snd r)
  | GetString => r <- ParseString ;; ret (SString (fst r), snd r)
  | GetBytes => r <- ParseBytes ;; ret (SBytes (fst r), snd r)
  | GetTime => r <- ParseTime ;; ret (STime (fst r), snd r)
  | GetDuration => r <- ParseDuration ;; ret (SDuration (fst r), snd r)
  | GetError => r <- ParseError ;; ret (SError (fst r), snd r)
  end.


(** One call of a decoder on the parser.  A [CallMapBegin] records whether
    the value was a struct (rather than a native map) and the length the
    call returned. *)
Inductive Call : Type :=
| CallParseType
| CallGetter (g : Getter)
| CallArrayBegin
| CallArrayNext
| CallArrayEnd
| CallMapBegin (on_struct : bool) (n : Z)
| CallMapValue
| CallMapNext
| CallMapEnd.



Definition count_calls (f : Call -> bool) (tr : list Call) : nat :=
  List.length (List.filter f tr).


Section Protocol.

Variable LookupStruct : reflect.rtype -> Struct.
Variable omit : StructField -> reflect.Value -> bool.

(** Modelled from the spec: the decoder that drives the parser is not in
    parse.go; these are the call sequences of the grammar of the protocol.
    [traverse p tr p'] is a complete traversal of the current value: any
    number of [ParseType] calls, then one getter, or a [Begin], the
    children and the matching [End]; a traversal also ends when
    [ParseType] reports an error.  After a [Begin] that returned [n], the
    decoder traverses [n] children with one [Next] between two of them,
    and, in a map, one [ParseMapValue] between a key and its value. *)
Inductive traverse : ValueParser -> list Call -> ValueParser -> Prop :=
| traverse_type p r p1 tr p2 :
    ParseType p = Ok (r, p1) ->
    traverse p1 tr p2 ->
    traverse p (CallParseType :: tr) p2
| traverse_unsupported p t msg p1 :
    ParseType p = Ok ((t, Some msg), p1) ->
    traverse p [CallParseType] p1
| traverse_scalar p g r p1 :
    call_getter g p = Ok (r, p1) ->
    traverse p [CallGetter g] p1
| traverse_array p n p1 tr p2 p3 :
    ParseArrayBegin p = Ok ((n, nil_error), p1) ->
    elements p1 (Z.to_nat n) tr p2 ->
    ParseArrayEnd p2 = Ok (nil_error, p3) ->
    traverse p (CallArrayBegin :: tr ++ [CallArrayEnd]) p3
| traverse_map p v n p1 tr p2 p3 :
    value p = Ok (v, p) ->
    ParseMapBegin LookupStruct omit p = Ok ((n, nil_error), p1) ->
    entries p1 (Z.to_nat n) tr p2 ->
    ParseMapEnd p2 = Ok (nil_error, p3) ->
    traverse p
      (CallMapBegin
         (negb (reflect.Kind_beq (reflect.Value_Kind v) reflect.Map)) n
         :: tr ++ [CallMapEnd]) p3
with elements : ValueParser -> nat -> list Call -> ValueParser -> Prop :=
| elements_none p :
    elements p 0 [] p
| elements_last p tr p1 :
    traverse p tr p1 ->
    elements p 1 tr p1
| elements_next p tr p1 p2 k tr' p3 :
    traverse p tr p1 ->
    ParseArrayNext p1 = Ok (nil_error, p2) ->
    elements p2 (S k) tr' p3 ->
    elements p (S (S k)) (tr ++ CallArrayNext :: tr') p3
with entries : ValueParser -> nat -> list Call -> ValueParser -> Prop :=
| entries_none p :
    entries p 0 [] p
| entries_last p trk p1 p2 trv p3 :
    traverse p trk p1 ->
    ParseMapValue p1 = Ok (nil_error, p2) ->
    traverse p2 trv p3 ->
    entries p 1 (trk ++ CallMapValue :: trv) p3
| entries_next p trk p1 p2 trv p3 p4 k tr' p5 :
    traverse p trk p1 ->
    ParseMapValue p1 = Ok (nil_error, p2) ->
    traverse p2 trv p3 ->
    ParseMapNext p3 = Ok (nil_error, p4) ->
    entries p4 (S k) tr' p5 ->
    entries p (S (S k)) (trk ++ CallMapValue :: trv ++ CallMapNext :: tr') p5.

Scheme traverse_mut := Minimality for traverse Sort Prop
  with elements_mut := Minimality for elements Sort Prop
  with entries_mut := Minimality for entries Sort Prop.
Combined Scheme traversal_ind from traverse_mut, elements_mut, entries_mut.

(** The getter a decoder calls once [ParseType] has answered [t]. *)
Definition getter_of (t : Type_) : option Getter :=
  match t with
  | Nil => Some GetNil | Bool => Some GetBool | Int => Some GetInt
  | Uint => Some GetUint | Float => Some GetFloat
  | String => Some GetString | Bytes => Some GetBytes
  | Time => Some GetTime | Duration => Some GetDuration
  | Error => Some GetError
  | Array | Map => None
  end.

(** The children of an array, each decoded by [dec]. *)
Fixpoint decode_elements (dec : M (list Call)) (k : nat) : M (list Call) :=
  match k with
  | O => ret []
  | S k' =>
      match k' with
      | O => dec
      | S _ =>
          tr <- dec ;;
          ParseArrayNext ;;
          tr' <- decode_elements dec k' ;;
          ret (tr ++ CallArrayNext :: tr')
      end
  end.

(** The entries of a map, keys and values each decoded by [dec]. *)
Fixpoint decode_entries (dec : M (list Call)) (k : nat) : M (list Call) :=
  match k with
  | O => ret []
  | S k' =>
      trk <- dec ;;
      ParseMapValue ;;
      trv <- dec ;;
      match k' with
      | O => ret (trk ++ CallMapValue :: trv)
      | S _ =>
          ParseMapNext ;;
          tr' <- decode_entries dec k' ;;
          ret (trk ++ CallMapValue :: trv ++ CallMapNext :: tr')
      end
  end.

(** Modelled from the spec: a decoder that follows the grammar, asking for
    the Type of each value and calling what the Type selects.  It runs
    with [fuel] levels of nesting and gives up (as a panic) beyond; its
    result is the trace of its calls. *)
Fixpoint decode (fuel : nat) : M (list Call) :=
  match fuel with
  | O => fun _ => Panic
  | S fuel' =>
      r <- ParseType ;;
      match r with
      | (_, Some _) => ret [CallParseType]
      | (Array, None) =>
          b <- ParseArrayBegin ;;
          tr <- decode_elements (decode fuel') (Z.to_nat (fst b)) ;;
          ParseArrayEnd ;;
          ret (CallParseType :: CallArrayBegin :: tr ++ [CallArrayEnd])
      | (Map, None) =>
          v <- value ;;
          b <- ParseMapBegin LookupStruct omit ;;
          tr <- decode_entries (decode fuel') (Z.to_nat (fst b)) ;;
          ParseMapEnd ;;
          ret (CallParseType
                 :: CallMapBegin
                      (negb (reflect.Kind_beq (reflect.Value_Kind v)
                               reflect.Map)) (fst b)
                 :: tr ++ [CallMapEnd])
      | (t, None) =>
          match getter_of t with
          | Some g => call_getter g ;; ret [CallParseType; CallGetter g]
          | None => fun _ => Panic
          end
      end
  end.

End Protocol.

(** [ParseType] called [k] times in a row, with every result. *)
Fixpoint ParseType_times (k : nat) : M (list (Type_ * error)) :=
  match k with
  | O => ret []
  | S k' => r <- ParseType ;; rs <- ParseType_times k' ;; ret (r :: rs)
  end.

(** ** Values used in the examples *)

Module demo.

Definition int_type : reflect.rtype :=
  reflect.MkType "int" reflect.Int false None 0.
Definition uint8_type : reflect.rtype :=
  reflect.MkType "uint8" reflect.Uint8 false None 0.
Definition string_type : reflect.rtype :=
  reflect.MkType "string" reflect.String false None 0.

Definition int (i : Z) : reflect.Value :=
  reflect.VInt reflect.IInt (reflect.MkInfo "int" false) i.
Definition byte (b : Z) : reflect.Value :=
  reflect.VUint reflect.UUint8 reflect.uint8_info b.
Definition str (s : string) : reflect.Value :=
  reflect.VString reflect.string_info s.

(** [[]int{1, 2, 3}] *)
Definition ints123 : reflect.Value :=
  reflect.VSlice (reflect.MkInfo "[]int" false) int_type false
    [int 1; int 2; int 3].

(** [[]byte{1, 2, 3}] and [[3]byte{1, 2, 3}] *)
Definition byte_slice : reflect.Value :=
  reflect.VSlice (reflect.MkInfo "[]uint8" false) uint8_type false
    [byte 1; byte 2; byte 3].
Definition byte_array : reflect.Value :=
  reflect.VArray (reflect.MkInfo "[3]uint8" false) uint8_type false
    [byte 1; byte 2; byte 3].


(** [[3]int{1, 2, 3}] *)
Definition int_array : reflect.Value :=
  reflect.VArray (reflect.MkInfo "[3]int" false) int_type false
    [int 1; int 2; int 3].

(** [type E []byte] with a method [Error() string], and [E{1}] *)
Definition error_bytes : reflect.Value :=
  reflect.VSlice (reflect.MkInfo "main.E" true) uint8_type false [byte 1].

(** [type A [2]int] with a method [Error() string], and [A{1, 2}] *)
Definition error_array : reflect.Value :=
  reflect.VArray (reflect.MkInfo "main.A" true) int_type false [int 1; int 2].

(** A nil pointer to int, and a pointer to [7] *)
Definition nil_int_ptr : reflect.Value :=
  reflect.VPtr (reflect.MkInfo "*int" false) int_type None.
Definition int_ptr : reflect.Value :=
  reflect.VPtr (reflect.MkInfo "*int" false) int_type (Some (int 7)).

(** A nil pointer to a [[0]int], and a nil pointer to a [[3]int] *)
Definition nil_ptr_to_array (n : nat) (str : string) : reflect.Value :=
  reflect.VPtr (reflect.MkInfo (String.append "*" str) false)
    (reflect.MkType str reflect.Array false (Some int_type) n) None.
Definition nil_array0_ptr : reflect.Value := nil_ptr_to_array 0 "[0]int".
Definition nil_array3_ptr : reflect.Value := nil_ptr_to_array 3 "[3]int".

(** An element of a [[]interface{}] that holds nothing. *)
Definition nil_interface : reflect.Value :=
  reflect.VInterface (reflect.MkInfo "interface {}" false) None.

(** [func() {}] *)
Definition func_value : reflect.Value :=
  reflect.VOpaque reflect.OFunc (reflect.MkInfo "func()" false) false 0.

(** [map[string]int{"a": 1}] *)
Definition map_a1 : reflect.Value :=
  reflect.VMap (reflect.MkInfo "map[string]int" false) int_type false
    [(str "a", int 1)].

(** [map[string]int{"a": 1, "b": 2}], its keys enumerated in this
    order. *)
Definition map_ab : reflect.Value :=
  reflect.VMap (reflect.MkInfo "map[string]int" false) int_type false
    [(str "a", int 1); (str "b", int 2)].

(** [map[float64]int{math.NaN(): 1}]: the key is the quiet NaN of bit
    pattern 0x7FF8000000000001. *)
Definition nan : reflect.Value :=
  reflect.VFloat reflect.FFloat64 (reflect.MkInfo "float64" false)
    9221120237041090561.
Definition map_nan : reflect.Value :=
  reflect.VMap (reflect.MkInfo "map[float64]int" false) int_type false
    [(nan, int 1)].

(** [struct{ A int; B string }{A: 0, B: "x"}] *)
Definition record_type : reflect.rtype :=
  reflect.MkType "struct { A int; B string }" reflect.Struct false None 0.
Definition record : reflect.Value :=
  reflect.VStruct (reflect.MkInfo "struct { A int; B string }" false)
    [int 0; str "x"].


(** Modelled from the spec: the field metadata of the record type above,
    its two fields in declaration order, and no field for other types. *)
Definition LookupStruct (t : reflect.rtype) : Struct :=
  if reflect.rtype_eqb t record_type
  then {| Fields := [ {| Index := [0]; Name := "A" |};
                      {| Index := [1]; Name := "B" |} ] |}
  else {| Fields := [] |}.

(** Modelled from the spec: the omit-zero predicate, which omits a field
    that holds the zero value of its type. *)
Definition omit (f : StructField) (v : reflect.Value) : bool :=
  match v with
  | reflect.VInvalid => true
  | reflect.VBool _ b => negb b
  | reflect.VInt _ _ i => i =? 0
  | reflect.VUint _ _ u => u =? 0
  | reflect.VFloat _ _ bits => bits =? 0
  | reflect.VString _ s => String.eqb s ""
  | reflect.VSlice _ _ n _ => n
  | reflect.VMap _ _ n _ => n
  | reflect.VPtr _ _ None => true
  | reflect.VInterface _ None => true
  | reflect.VOpaque _ _ n _ => n
  | _ => false
  end.


Definition record_trace : list Call :=
  [CallParseType; CallMapBegin true 1;
   CallParseType; CallGetter GetString; CallMapValue;
   CallParseType; CallGetter GetString; CallMapEnd].

(** The parser after [ParseMapBegin] on [map_a1], and after
    [ParseMapBegin] on [record]. *)
Definition in_map_a1 : ValueParser :=
  {| stack := [map_a1; str "a"];
     ctx := [new_context 1 map_a1 (Some [str "a"]) []] |}.

Definition in_record : ValueParser :=
  {| stack := [record; str "B"];
     ctx := [new_context 0 record None [ {| Index := [1]; Name := "B" |} ]] |}.

(** The parser after [ParseArrayBegin] on [ints123]. *)
Definition in_ints123 : ValueParser :=
  {| stack := [ints123; int 1];
     ctx := [new_context 3 ints123 None []] |}.

End demo.

(** ** Notions used to state the properties *)

(** What [value] answers when [top] is the top of the stack. *)
Definition resolve (top : reflect.Value) : reflect.Value :=
  if negb (reflect.Value_IsValid top) then top
  else match reflect.Value_Interface top with
       | Ok i => if is_error i then top else dereference top
       | Panic => top
       end.

(** [unwraps v w]: [w] is reached from [v] by taking the element of a
    non-nil pointer or interface, any number of times. *)
Inductive unwraps : reflect.Value -> reflect.Value -> Prop :=
| unwraps_here v : unwraps v v
| unwraps_elem v e w :
    reflect.Value_Kind v = reflect.Interface \/
    reflect.Value_Kind v = reflect.Ptr ->
    reflect.Value_IsNil v = Ok false ->
    reflect.Value_Elem v = Ok e ->
    unwraps e w ->
    unwraps v w.

(** The loop stops at [v]: it is no pointer or interface, or a nil one. *)
Definition stops_at (v : reflect.Value) : Prop :=
  (reflect.Value_Kind v <> reflect.Interface /\
   reflect.Value_Kind v <> reflect.Ptr) \/
  reflect.Value_IsNil v = Ok true.

(** The value of the field [f] of the struct [v] (the zero Value if
    [FieldByIndex] panics). *)
Definition field_value (v : reflect.Value) (f : StructField) : reflect.Value :=
  match reflect.Value_FieldByIndex v (Index f) with
  | Ok fv => fv
  | Panic => reflect.VInvalid
  end.

(** The fields of [fs] that [omit] does not omit for the struct [v], in
    the order of [fs]. *)
Definition kept_fields (omit : StructField -> reflect.Value -> bool)
    (v : reflect.Value) (fs : list StructField) : list StructField :=
  filter (fun f => negb (omit f (field_value v f))) fs.

(** What [ParseMapBegin] pushes on the value stack for the fields kept. *)
Definition first_name (kept : list StructField) : list reflect.Value :=
  match kept with
  | [] => []
  | f :: _ => [string_value (Name f)]
  end.


(** The kinds for which [ParseType] has no case once the value is valid. *)
Definition unclassified_kinds : list reflect.Kind :=
  [reflect.Complex64; reflect.Complex128; reflect.Chan; reflect.Func;
   reflect.Ptr; reflect.UnsafePointer].



(** What a [Begin] leaves: one context more, and one value more unless
    the length it returned is zero. *)
Definition opened (p p' : ValueParser) (n : Z) (c : valueParserContext)
  : Prop :=
  ctx p' = ctx p ++ [c] /\
  ((n = 0 /\ stack p' = stack p) \/
   (n <> 0 /\ exists x, stack p' = stack p ++ [x])).

(** ** Notions used to state how the calls compose *)

(** The call [m] made [k] times in a row. *)
Fixpoint repeat_call (k : nat) (m : M error) : M unit :=
  match k with
  | O => ret tt
  | S k' => repeat_call k' m ;; m ;; ret tt
  end.

(** The two calls a decoder makes on a map between one key and the next:
    [ParseMapValue] after the key and [ParseMapNext] after the value. *)
Definition entry_round : M error := ParseMapValue ;; ParseMapNext.

(** The elements of a slice or array, and the entries of a map. *)
Definition Value_elements (v : reflect.Value) : option (list reflect.Value) :=
  match v with
  | reflect.VSlice _ _ _ l => Some l
  | reflect.VArray _ _ _ l => Some l
  | _ => None
  end.

Definition Value_entries (v : reflect.Value)
  : option (list (reflect.Value * reflect.Value)) :=
  match v with
  | reflect.VMap _ _ _ m => Some m
  | _ => None
  end.

(** The context of an iteration that has reached the child number [i]. *)
Definition iterating (n : Z) (v : reflect.Value)
    (keys : option (list reflect.Value)) (fields : list StructField)
    (i : nat) : valueParserContext :=
  {| ctx_index := Z.of_nat i; ctx_length := n; ctx_value := v;
     ctx_keys := keys; ctx_fields := fields |}.

(** The parser [p] with one more context and one more value. *)
Definition inside (p : ValueParser) (c : valueParserContext)
    (top : reflect.Value) : ValueParser :=
  {| stack := stack p ++ [top]; ctx := ctx p ++ [c] |}.

(** The number of [ParseMapBegin] calls of a trace that were answered from
    a struct with a field that is not omitted. *)
Definition struct_entries (tr : list Call) : nat :=
  List.length
    (List.filter (fun c => match c with
                           | CallMapBegin true n => negb (n =? 0)
                           | _ => false
                           end) tr).

(** What a call returns, without the parser. *)
Definition result_of {A : Type} (r : Res (A * ValueParser)) : Res A :=
  match r with
  | Ok (a, _) => Ok a
  | Panic => Panic
  end.

(** Whether the type switch [case error] matches the value. *)
Definition Value_is_error (v : reflect.Value) : bool :=
  match reflect.Value_Interface v with
  | Ok i => is_error i
  | Panic => false
  end.

(** [retopped p p']: [p'] is [p] with the top of a non-empty value stack
    replaced, the index of the innermost context possibly changed. *)
Definition retopped (p p' : ValueParser) : Prop :=
  stack p <> [] /\
  (exists x, stack p' = removelast (stack p) ++ [x]) /\
  removelast (ctx p') = removelast (ctx p) /\
  (forall c, slice_last (ctx p) = Ok c ->
             exists c', slice_last (ctx p') = Ok c' /\
                        ctx_length c' = ctx_length c).

(** The map keys that Go compares by their value alone and that the model
    holds in full, so that [reflect.Value_eqb] is Go's [==] on them:
    booleans, integers, floats and strings. *)
Definition compared_by_value (key : reflect.Value) : bool :=
  match key with
  | reflect.VBool _ _ | reflect.VInt _ _ _ | reflect.VUint _ _ _
  | reflect.VFloat _ _ _ | reflect.VString _ _ => true
  | _ => false
  end.

(** The key at position [k] of the entries [m] is the first of its kind:
    it is equal to itself and to no key before it. *)
Definition first_of_its_key (m : list (reflect.Value * reflect.Value))
    (k : nat) (key : reflect.Value) : Prop :=
  reflect.Value_eqb key key = true /\
  forall j e, (j < k)%nat -> nth_error m j = Some e ->
              reflect.Value_eqb (fst e) key = false.

(** The key that a map iteration shows at index [i]: the key at [i] of
    the key list, or the name of the field at [i]; and the value that
    goes with it: the map value of that key, or the value of that
    field. *)
Definition child_key (keys : option (list reflect.Value))
    (fields : list StructField) (i : Z) : Res reflect.Value :=
  match keys with
  | Some ks => slice_index ks i
  | None => res_bind (slice_index fields i)
              (fun f => Ok (string_value (Name f)))
  end.

Definition child_value (v : reflect.Value)
    (keys : option (list reflect.Value)) (fields : list StructField)
    (i : Z) : Res reflect.Value :=
  match keys with
  | Some ks => res_bind (slice_index ks i) (reflect.Value_MapIndex v)
  | None => res_bind (slice_index fields i)
              (fun f => reflect.Value_FieldByIndex v (Index f))
  end.

(** The first key of a map, as [ParseMapBegin] pushes it. *)
Definition first_key (m : list (reflect.Value * reflect.Value))
  : list reflect.Value :=
  match m with
  | [] => []
  | e :: _ => [fst e]
  end.

(** [above base n s]: the stack [s] is [base] with [n] entries on it. *)
Definition above (base : list reflect.Value) (n : nat)
    (s : list reflect.Value) : Prop :=
  exists ext, s = base ++ ext /\ List.length ext = n.

(** [context_kept p p']: the context stacks of [p] and [p'] differ at most
    in the innermost context, which has the same length in both. *)
Definition context_kept (p p' : ValueParser) : Prop :=
  removelast (ctx p') = removelast (ctx p) /\
  (forall c, slice_last (ctx p) = Ok c ->
             exists c', slice_last (ctx p') = Ok c' /\
                        ctx_length c' = ctx_length c).

(** ** Slices *)

Lemma slice_last_app (A : Type) (l : list A) (x : A) :
  slice_last (l ++ [x]) = Ok x.
Proof.
  induction l as [|a l IH]; [reflexivity|].
  simpl. destruct (l ++ [x]) eqn:E; [destruct l; discriminate|exact IH].
Qed.

Lemma slice_last_inv (A : Type) (l : list A) (x : A) :
  slice_last l = Ok x -> l = removelast l ++ [x].
Proof.
  induction l as [|a l IH]; [discriminate|].
  destruct l as [|b l]; simpl.
  - intros H; inversion H; reflexivity.
  - intros H. f_equal. apply IH. exact H.
Qed.

Lemma slice_last_nonempty (A : Type) (l : list A) :
  l <> [] -> exists x, slice_last l = Ok x.
Proof.
  intros H. destruct (exists_last H) as [l' [x ->]].
  exists x. apply slice_last_app.
Qed.

Lemma slice_index_0 (A : Type) (x : A) (l : list A) :
  slice_index (x :: l) 0 = Ok x.
Proof.
  unfold slice_index.
  replace (0 <? Z.of_nat (List.length (x :: l))) with true; [reflexivity|].
  symmetry. apply Z.ltb_lt. simpl List.length. lia.
Qed.

Lemma int_wrap_small (z : Z) :
  - 2 ^ 63 <= z < 2 ^ 63 -> int_wrap z = z.
Proof.
  intros H. unfold int_wrap.
  rewrite Z.mod_small by lia. lia.
Qed.

(** ** The current value *)

Lemma value_eq (p : ValueParser) :
  value p = match slice_last (stack p) with
            | Ok top => Ok (resolve top, p)
            | Panic => Panic
            end.
Proof.
  unfold value, bind, lift, ret, resolve.
  destruct (slice_last (stack p)) as [top|]; [|reflexivity].
  destruct top; simpl; try reflexivity;
    match goal with |- context [is_error ?i] => destruct (is_error i) end;
    reflexivity.
Qed.

Lemma value_pure (p p' : ValueParser) (v : reflect.Value) :
  value p = Ok (v, p') -> p' = p.
Proof.
  rewrite value_eq. destruct (slice_last (stack p)); [|discriminate].
  intros H; inversion H; reflexivity.
Qed.

Lemma value_panics (p : ValueParser) :
  value p = Panic <-> stack p = [].
Proof.
  rewrite value_eq. split.
  - destruct (stack p) as [|a l] eqn:E; [reflexivity|].
    destruct (@slice_last_nonempty _ (a :: l)) as [x Hx]; [discriminate|].
    rewrite Hx. discriminate.
  - intros ->. reflexivity.
Qed.

(** The loop at [dereference], in the words of the source: on a non-nil
    interface or pointer it continues with the element, and otherwise it
    is done. *)
Lemma dereference_loop (v : reflect.Value) :
  dereference v =
  match reflect.Value_Kind v with
  | reflect.Interface | reflect.Ptr =>
      match reflect.Value_IsNil v, reflect.Value_Elem v with
      | Ok false, Ok e => dereference e
      | _, _ => v
      end
  | _ => v
  end.
Proof.
  destruct v as [| | k | k | k | | | | | | ? ? [e|] | ? [e|] | k ]; simpl;
    try reflexivity; destruct k; reflexivity.
Qed.

Lemma dereference_stops : forall v, stops_at (dereference v).
Proof.
  fix IH 1.
  intros v.
  destruct v as [| | k | k | k | | | | | | t el [e|] | t [e|] | k ]; simpl;
    try (apply IH);
    try (right; reflexivity);
    left; split; simpl; try destruct k; discriminate.
Qed.

Lemma dereference_unwraps : forall v, unwraps v (dereference v).
Proof.
  fix IH 1.
  intros v.
  destruct v as [| | | | | | | | | | t el [e|] | t [e|] | ]; simpl;
    try apply unwraps_here.
  - eapply unwraps_elem;
      [right; reflexivity|reflexivity|reflexivity|apply IH].
  - eapply unwraps_elem;
      [left; reflexivity|reflexivity|reflexivity|apply IH].
Qed.

(** C9: [value] always returns when the stack is not empty (values are
    finite trees, so acyclic): a top that is invalid or that implements
    [error] is returned as it is, before any unwrapping; otherwise the
    result is reached from the top through non-nil pointers and interfaces
    only, and is the first value that is no pointer or interface, or a nil
    one. *)
Theorem value_unwraps_to_first_stop (p : ValueParser) (top : reflect.Value) :
  slice_last (stack p) = Ok top ->
  exists v,
    value p = Ok (v, p) /\
    (reflect.Value_IsValid top = false -> v = top) /\
    (forall i, reflect.Value_Interface top = Ok i ->
               is_error i = true -> v = top) /\
    (forall i, reflect.Value_Interface top = Ok i ->
               is_error i = false -> unwraps top v /\ stops_at v).
Proof.
  intros Htop. exists (resolve top).
  rewrite value_eq, Htop. split; [reflexivity|].
  unfold resolve. split; [|split].
  - intros ->. reflexivity.
  - intros i Hi He. rewrite Hi, He.
    destruct (negb (reflect.Value_IsValid top)); reflexivity.
  - intros i Hi He.
    assert (Hv : reflect.Value_IsValid top = true)
      by (destruct top; [discriminate Hi|reflexivity..]).
    rewrite Hv, Hi, He. simpl negb. cbv iota.
    split; [apply dereference_unwraps|apply dereference_stops].
Qed.

Lemma value_unwraps_to_first_stop_witness :
  exists v,
    value (NewValueParser (Some demo.int_ptr))
      = Ok (v, NewValueParser (Some demo.int_ptr)) /\
    (reflect.Value_IsValid demo.int_ptr = false -> v = demo.int_ptr) /\
    (forall i, reflect.Value_Interface demo.int_ptr = Ok i ->
               is_error i = true -> v = demo.int_ptr) /\
    (forall i, reflect.Value_Interface demo.int_ptr = Ok i ->
               is_error i = false -> unwraps demo.int_ptr v /\ stops_at v).
Proof.
  apply (@value_unwraps_to_first_stop
           (NewValueParser (Some demo.int_ptr)) demo.int_ptr).
  reflexivity.
Defined.

(** ** Classification *)

Ltac run_in H :=
  repeat (cbv beta iota in H;
          match type of H with
          | context [match ?x with _ => _ end] =>
              lazymatch x with
              | context [match _ with _ => _ end] => fail
              | _ => destruct x eqn:?; try discriminate
              end
          end).

Ltac ok_inv :=
  repeat match goal with
         | H : Ok _ = Ok _ |- _ => inversion H; clear H; subst
         | H : (_, _) = (_, _) |- _ => inversion H; clear H; subst
         end.

Lemma ParseType_pure (p p' : ValueParser) (r : Type_ * error) :
  ParseType p = Ok (r, p') -> p' = p.
Proof.
  intros H. unfold ParseType, bind in H. rewrite value_eq in H.
  destruct (slice_last (stack p)) as [top|]; [|discriminate].
  unfold unsupported, bind, lift, ret in H.
  run_in H; ok_inv; reflexivity.
Qed.

(** C8: [ParseType] leaves the parser as it was, so any number of calls
    in a row return the result of the first one. *)
Theorem ParseType_idempotent (p p' : ValueParser) (r : Type_ * error) :
  ParseType p = Ok (r, p') ->
  p' = p /\ forall k, ParseType_times k p = Ok (repeat r k, p).
Proof.
  intros H. assert (Hp := ParseType_pure _ H). subst p'.
  split; [reflexivity|].
  induction k as [|k IH]; [reflexivity|].
  simpl. unfold bind at 1. rewrite H.
  unfold bind at 1. rewrite IH. reflexivity.
Qed.

Lemma ParseType_idempotent_witness :
  NewValueParser (Some demo.ints123) = NewValueParser (Some demo.ints123) /\
  forall k,
    ParseType_times k (NewValueParser (Some demo.ints123))
    = Ok (repeat (Array, nil_error) k, NewValueParser (Some demo.ints123)).
Proof.
  apply (@ParseType_idempotent (NewValueParser (Some demo.ints123)) _
           (Array, nil_error)).
  reflexivity.
Defined.

Lemma Value_Type_Kind (v : reflect.Value) (t : reflect.rtype) :
  reflect.Value_Type v = Ok t -> reflect.Type_Kind t = reflect.Value_Kind v.
Proof.
  destruct v; simpl; intros H; inversion H; reflexivity.
Qed.

Lemma rtype_eqb_Kind (a b : reflect.rtype) :
  reflect.rtype_eqb a b = true -> reflect.Type_Kind a = reflect.Type_Kind b.
Proof.
  destruct a, b; simpl. intros H.
  apply andb_prop in H; destruct H as [H _].
  apply andb_prop in H; destruct H as [H _].
  apply andb_prop in H; destruct H as [H _].
  apply andb_prop in H; destruct H as [_ H].
  apply reflect.internal_Kind_dec_bl. exact H.
Qed.

Lemma rtype_eqb_error (a b : reflect.rtype) :
  reflect.rtype_eqb a b = true ->
  reflect.Type_implements_error a = reflect.Type_implements_error b.
Proof.
  destruct a, b; simpl. intros H.
  apply andb_prop in H; destruct H as [H _].
  apply andb_prop in H; destruct H as [H _].
  apply andb_prop in H; destruct H as [_ H].
  apply Bool.eqb_prop. exact H.
Qed.

Lemma is_type_Kind (v : reflect.Value) (t : reflect.rtype) :
  is_type (Some v) t = true -> reflect.Value_Kind v = reflect.Type_Kind t.
Proof.
  unfold is_type, reflect.TypeOf.
  destruct (reflect.Value_Type v) as [t'|] eqn:E; [|discriminate].
  intros H. rewrite <- (Value_Type_Kind _ E). apply rtype_eqb_Kind. exact H.
Qed.

Lemma is_type_not_error (i : reflect.any) (t : reflect.rtype) :
  is_type i t = true -> is_error i = reflect.Type_implements_error t.
Proof.
  unfold is_type, is_error. destruct (reflect.TypeOf i); [|discriminate].
  apply rtype_eqb_error.
Qed.


Lemma unclassified_not_time (v : reflect.Value) :
  In (reflect.Value_Kind v) unclassified_kinds ->
  is_type (Some v) time.Time = false /\
  is_type (Some v) time.Duration = false.
Proof.
  intros Hk. split.
  - destruct (is_type (Some v) time.Time) eqn:E; [|reflexivity].
    apply is_type_Kind in E. rewrite E in Hk. simpl in Hk.
    exfalso. intuition discriminate.
  - destruct (is_type (Some v) time.Duration) eqn:E; [|reflexivity].
    apply is_type_Kind in E. rewrite E in Hk. simpl in Hk.
    exfalso. intuition discriminate.
Qed.

(** The list [unclassified_kinds] is complete: [ParseType] returns an
    error for values of these kinds only. *)
Lemma ParseType_error_only_unclassified (p p' : ValueParser) (t : Type_)
    (msg : string) :
  ParseType p = Ok ((t, Some msg), p') ->
  exists v, value p = Ok (v, p) /\
            In (reflect.Value_Kind v) unclassified_kinds.
Proof.
  intros H. unfold ParseType, bind in H. rewrite value_eq in H.
  rewrite value_eq.
  destruct (slice_last (stack p)) as [top|]; [|discriminate].
  exists (resolve top). split; [reflexivity|].
  assert (Hstop : forall i, reflect.Value_Interface top = Ok i ->
                            is_error i = false -> stops_at (resolve top)).
  { intros i Hi He. unfold resolve. rewrite Hi, He.
    destruct (negb (reflect.Value_IsValid top)) eqn:E.
    - destruct top; discriminate.
    - apply dereference_stops. }
  assert (Hsame : forall i, reflect.Value_Interface top = Ok i ->
                            is_error i = true -> resolve top = top).
  { intros i Hi He. unfold resolve. rewrite Hi, He.
    destruct (negb (reflect.Value_IsValid top)); reflexivity. }
  unfold unsupported, bind, lift, ret in H.
  destruct (resolve top) as [| | k | k | k | | | | | | ? ? tg | ? dyn | k] eqn:Er;
    try destruct k; simpl in H; run_in H; ok_inv;
    try discriminate;
    try (simpl; tauto).
  (* a non-nil interface is what [value] answers for an error only *)
  exfalso.
  destruct (reflect.Value_Interface top) as [i|] eqn:Hi.
  - destruct (is_error i) eqn:He.
    + assert (Ht := Hsame i eq_refl He). subst top.
      simpl in Hi. inversion Hi; subst i. congruence.
    + destruct (Hstop i eq_refl He) as [[Hk _]|Hn].
      * apply Hk. reflexivity.
      * simpl in Hn. discriminate.
  - destruct top; try discriminate Hi.
    unfold resolve in Er. simpl in Er. discriminate.
Qed.

(** C6: when the value that [value] resolves to has a kind for which
    [ParseType] has no case (a complex number, channel, func, pointer or
    unsafe pointer) and is not an [error], [ParseType] returns Nil with the
    error whose text ends with the [String()] of the type of that value,
    and the parser is left as it was. *)
Theorem ParseType_unsupported (p : ValueParser) (v : reflect.Value) :
  value p = Ok (v, p) ->
  is_error (Some v) = false ->
  In (reflect.Value_Kind v) unclassified_kinds ->
  exists t,
    reflect.Value_Type v = Ok t /\
    ParseType p =
    Ok ((Nil,
         errors.New
           (String.append
              "objconv: unsupported type found in value parser: "
              (reflect.Type_String t))), p).
Proof.
  intros Hv He Hk.
  destruct (unclassified_not_time _ Hk) as [Ht Hd].
  unfold ParseType, bind. rewrite Hv.
  destruct v as [| | k | k | k | | | | | | t el tg | | k t n c];
    try destruct k; simpl in Hk;
    try (exfalso; intuition discriminate);
    (eexists; split; [reflexivity|]);
    simpl; unfold lift, bind; rewrite Ht, Hd, He; reflexivity.
Qed.

Lemma ParseType_unsupported_witness :
  exists t,
    reflect.Value_Type demo.func_value = Ok t /\
    ParseType (NewValueParser (Some demo.func_value)) =
    Ok ((Nil,
         errors.New
           (String.append
              "objconv: unsupported type found in value parser: "
              (reflect.Type_String t))),
        NewValueParser (Some demo.func_value)).
Proof.
  apply (@ParseType_unsupported
           (NewValueParser (Some demo.func_value)) demo.func_value).
  - reflexivity.
  - reflexivity.
  - simpl. tauto.
Defined.

(** C2 (the code at the failing input): a nil root and a nil interface
    classify as Nil with no error, but a nil pointer to int is answered
    with the unsupported-type error: [ParseType] has a case for a nil
    value of kind Interface and none for one of kind Ptr. *)
Theorem ParseType_nil_pointer_is_unsupported :
  ParseType (NewValueParser None)
  = Ok ((Nil, nil_error), NewValueParser None) /\
  ParseType {| stack := [demo.nil_interface]; ctx := [] |}
  = Ok ((Nil, nil_error), {| stack := [demo.nil_interface]; ctx := [] |}) /\
  ParseType (NewValueParser (Some demo.nil_int_ptr))
  = Ok ((Nil,
         errors.New "objconv: unsupported type found in value parser: *int"),
        NewValueParser (Some demo.nil_int_ptr)).
Proof.
  repeat split; reflexivity.
Qed.

Lemma ParseType_sequence (p : ValueParser) (v : reflect.Value) :
  value p = Ok (v, p) ->
  is_error (Some v) = false ->
  (forall t e,
      reflect.Value_Kind v = reflect.Slice ->
      reflect.Value_Type v = Ok t ->
      reflect.Type_Elem t = Ok e ->
      ParseType p =
      Ok ((if reflect.Kind_beq (reflect.Type_Kind e) reflect.Uint8
           then Bytes else Array, nil_error), p)) /\
  (reflect.Value_Kind v = reflect.Array ->
   ParseType p = Ok ((Array, nil_error), p)).
Proof.
  intros Hv He.
  assert (Ht : reflect.Value_Kind v = reflect.Slice \/
               reflect.Value_Kind v = reflect.Array ->
               is_type (Some v) time.Time = false /\
               is_type (Some v) time.Duration = false).
  { intros Hk. split.
    - destruct (is_type (Some v) time.Time) eqn:E; [|reflexivity].
      apply is_type_Kind in E. rewrite E in Hk.
      exfalso. simpl in Hk. intuition discriminate.
    - destruct (is_type (Some v) time.Duration) eqn:E; [|reflexivity].
      apply is_type_Kind in E. rewrite E in Hk.
      exfalso. simpl in Hk. intuition discriminate. }
  split.
  - intros t e Hk Hty Hel.
    destruct (Ht (or_introl Hk)) as [H1 H2].
    unfold ParseType, bind. rewrite Hv.
    destruct v as [| | k | k | k | | ti el n l | | | | | | k];
      try destruct k; try discriminate Hk.
    simpl. unfold lift, bind. rewrite H1, H2, He.
    simpl in Hty. inversion Hty; subst t. simpl in Hel.
    inversion Hel; subst e.
    simpl. destruct (reflect.Kind_beq (reflect.Type_Kind el) reflect.Uint8);
      reflexivity.
  - intros Hk.
    destruct (Ht (or_intror Hk)) as [H1 H2].
    unfold ParseType, bind. rewrite Hv.
    destruct v as [| | k | k | k | | | ti el a l | | | | | k];
      try destruct k; try discriminate Hk.
    simpl. unfold lift, bind. rewrite H1, H2, He. reflexivity.
Qed.

(** C4 (amended): of a sequence (a slice or a fixed-length array) that
    [value] resolves to, one whose type implements [error] is classified
    as Error, because the switch on the type runs first; of the others, a
    slice whose element type has kind Uint8 is classified as Bytes, a
    slice of any other element kind as Array, and a fixed-length array as
    Array whatever its element type. *)
Theorem ParseType_bytes_only_for_byte_slices
    (p : ValueParser) (v : reflect.Value) :
  value p = Ok (v, p) ->
  reflect.Value_Kind v = reflect.Slice \/
  reflect.Value_Kind v = reflect.Array ->
  (is_error (Some v) = true ->
   ParseType p = Ok ((Error, nil_error), p)) /\
  (is_error (Some v) = false ->
   (forall t e,
       reflect.Value_Kind v = reflect.Slice ->
       reflect.Value_Type v = Ok t ->
       reflect.Type_Elem t = Ok e ->
       reflect.Type_Kind e = reflect.Uint8 ->
       ParseType p = Ok ((Bytes, nil_error), p)) /\
   (forall t e,
       reflect.Value_Kind v = reflect.Slice ->
       reflect.Value_Type v = Ok t ->
       reflect.Type_Elem t = Ok e ->
       reflect.Type_Kind e <> reflect.Uint8 ->
       ParseType p = Ok ((Array, nil_error), p)) /\
   (reflect.Value_Kind v = reflect.Array ->
    ParseType p = Ok ((Array, nil_error), p))).
Proof.
  intros Hv Hseq. split.
  - intros He.
    assert (Ht : is_type (Some v) time.Time = false /\
                 is_type (Some v) time.Duration = false).
    { split.
      - destruct (is_type (Some v) time.Time) eqn:E; [|reflexivity].
        apply is_type_Kind in E. rewrite E in Hseq.
        exfalso. simpl in Hseq. intuition discriminate.
      - destruct (is_type (Some v) time.Duration) eqn:E; [|reflexivity].
        apply is_type_Kind in E. rewrite E in Hseq.
        exfalso. simpl in Hseq. intuition discriminate. }
    destruct Ht as [H1 H2].
    unfold ParseType, bind. rewrite Hv.
    destruct v as [| | k | k | k | | | | | | | | k];
      try destruct k; simpl in Hseq; try (exfalso; intuition discriminate);
      simpl; unfold lift, bind; rewrite H1, H2, He; reflexivity.
  - intros He. destruct (ParseType_sequence Hv He) as [Hs Ha].
    split; [|split].
    + intros t e Hk Hty Hel Hb.
      rewrite (Hs t e Hk Hty Hel), Hb. reflexivity.
    + intros t e Hk Hty Hel Hb. rewrite (Hs t e Hk Hty Hel).
      destruct (reflect.Kind_beq (reflect.Type_Kind e) reflect.Uint8) eqn:E;
        [|reflexivity].
      apply reflect.internal_Kind_dec_bl in E. contradiction.
    + exact Ha.
Qed.

Lemma ParseType_bytes_only_for_byte_slices_witness :
  ParseType (NewValueParser (Some demo.byte_slice))
  = Ok ((Bytes, nil_error), NewValueParser (Some demo.byte_slice)) /\
  ParseType (NewValueParser (Some demo.ints123))
  = Ok ((Array, nil_error), NewValueParser (Some demo.ints123)) /\
  ParseType (NewValueParser (Some demo.int_array))
  = Ok ((Array, nil_error), NewValueParser (Some demo.int_array)) /\
  ParseType (NewValueParser (Some demo.byte_array))
  = Ok ((Array, nil_error), NewValueParser (Some demo.byte_array)) /\
  ParseType (NewValueParser (Some demo.error_bytes))
  = Ok ((Error, nil_error), NewValueParser (Some demo.error_bytes)).
Proof.
  split; [|split; [|split; [|split]]].
  - destruct (@ParseType_bytes_only_for_byte_slices
                (NewValueParser (Some demo.byte_slice)) demo.byte_slice
                eq_refl (or_introl eq_refl)) as [_ H].
    destruct (H eq_refl) as [H1 _].
    apply (H1 (reflect.MkType "[]uint8" reflect.Slice false
                 (Some demo.uint8_type) 0) demo.uint8_type);
      reflexivity.
  - destruct (@ParseType_bytes_only_for_byte_slices
                (NewValueParser (Some demo.ints123)) demo.ints123
                eq_refl (or_introl eq_refl)) as [_ H].
    destruct (H eq_refl) as (_ & H2 & _).
    apply (H2 (reflect.MkType "[]int" reflect.Slice false
                 (Some demo.int_type) 0) demo.int_type);
      try reflexivity.
    discriminate.
  - destruct (@ParseType_bytes_only_for_byte_slices
                (NewValueParser (Some demo.int_array)) demo.int_array
                eq_refl (or_intror eq_refl)) as [_ H].
    destruct (H eq_refl) as (_ & _ & H3).
    apply H3. reflexivity.
  - destruct (@ParseType_bytes_only_for_byte_slices
                (NewValueParser (Some demo.byte_array)) demo.byte_array
                eq_refl (or_intror eq_refl)) as [_ H].
    destruct (H eq_refl) as (_ & _ & H3).
    apply H3. reflexivity.
  - destruct (@ParseType_bytes_only_for_byte_slices
                (NewValueParser (Some demo.error_bytes)) demo.error_bytes
                eq_refl (or_introl eq_refl)) as [H _].
    apply H. reflexivity.
Defined.

(** C4 (counterexample): the fixed-length byte array [[3]byte{1, 2, 3}],
    whose element type is a single byte, is classified as Array and not
    as Bytes; a byte slice of a type that implements [error] is classified
    as Error and not as Bytes; and an array of ints of a type that
    implements [error] is classified as Error and not as Array. *)
Lemma byte_array_is_not_Bytes :
  reflect.Value_Kind demo.byte_array = reflect.Array /\
  (exists t e, reflect.Value_Type demo.byte_array = Ok t /\
               reflect.Type_Elem t = Ok e /\
               reflect.Type_Kind e = reflect.Uint8) /\
  ParseType (NewValueParser (Some demo.byte_array))
  = Ok ((Array, nil_error), NewValueParser (Some demo.byte_array)) /\
  reflect.Value_Kind demo.error_bytes = reflect.Slice /\
  (exists t e, reflect.Value_Type demo.error_bytes = Ok t /\
               reflect.Type_Elem t = Ok e /\
               reflect.Type_Kind e = reflect.Uint8) /\
  ParseType (NewValueParser (Some demo.error_bytes))
  = Ok ((Error, nil_error), NewValueParser (Some demo.error_bytes)) /\
  reflect.Value_Kind demo.error_array = reflect.Array /\
  (exists t e, reflect.Value_Type demo.error_array = Ok t /\
               reflect.Type_Elem t = Ok e /\
               reflect.Type_Kind e = reflect.Int) /\
  ParseType (NewValueParser (Some demo.error_array))
  = Ok ((Error, nil_error), NewValueParser (Some demo.error_array)).
Proof.
  repeat split; try reflexivity;
    eexists; eexists; repeat split; reflexivity.
Qed.

(** ** Scalar getters *)

Lemma getter_nil_error (g : Getter) (p p' : ValueParser)
    (r : Scalar) (e : error) :
  call_getter g p = Ok ((r, e), p') -> e = nil_error /\ p' = p.
Proof.
  intros H.
  destruct g; unfold call_getter, bind in H;
    unfold ParseNil, ParseBool, ParseInt, ParseUint, ParseFloat, ParseString,
      ParseBytes, ParseTime, ParseDuration, ParseError, bind in H;
    try rewrite value_eq in H; unfold lift, ret in H;
    run_in H; ok_inv; split; reflexivity.
Qed.

Lemma is_type_Some (i : reflect.any) (t : reflect.rtype) :
  is_type i t = true ->
  exists v, i = Some v /\
            reflect.Value_Kind v = reflect.Type_Kind t /\
            is_error i = reflect.Type_implements_error t.
Proof.
  intros H. destruct i as [v|]; [|discriminate H].
  exists v. split; [reflexivity|]. split.
  - apply is_type_Kind. exact H.
  - apply is_type_not_error. exact H.
Qed.

Ltac type_facts :=
  repeat match goal with
         | H : is_type _ _ = true |- _ =>
             apply is_type_Some in H;
             let x := fresh "x" in
             let Hk := fresh "Hk" in
             let He := fresh "He" in
             destruct H as (x & ? & Hk & He); simpl in Hk, He
         end.



Lemma bytes_of_uint8 (l : list reflect.Value) :
  Forall (fun x => reflect.Value_Kind x = reflect.Uint8) l ->
  exists bs, reflect.bytes_of l = Ok bs.
Proof.
  induction 1 as [|x l Hx _ [bs IH]].
  - exists []. reflexivity.
  - destruct x as [| | k | k | k | | | | | | | | k]; try destruct k;
      try discriminate Hx.
    simpl. rewrite IH. eexists. reflexivity.
Qed.






(** ** The operations on the two stacks *)

Lemma bind_inv (A B : Type) (m : M A) (k : A -> M B)
    (p p' : ValueParser) (b : B) :
  bind m k p = Ok (b, p') ->
  exists a p1, m p = Ok (a, p1) /\ k a p1 = Ok (b, p').
Proof.
  unfold bind. destruct (m p) as [[a p1]|]; [|discriminate].
  intros H. exists a, p1. split; [reflexivity|exact H].
Qed.

Lemma ret_inv (A : Type) (a b : A) (p p' : ValueParser) :
  ret a p = Ok (b, p') -> b = a /\ p' = p.
Proof. unfold ret. intros H; inversion H; split; reflexivity. Qed.

Lemma lift_inv (A : Type) (r : Res A) (a : A) (p p' : ValueParser) :
  lift r p = Ok (a, p') -> r = Ok a /\ p' = p.
Proof.
  unfold lift. destruct r; [|discriminate].
  intros H; inversion H; split; reflexivity.
Qed.

Lemma push_inv (v : reflect.Value) (u : unit) (p p' : ValueParser) :
  push v p = Ok (u, p') -> stack p' = stack p ++ [v] /\ ctx p' = ctx p.
Proof. unfold push. intros H; inversion H; split; reflexivity. Qed.

Lemma pop_inv (u : unit) (p p' : ValueParser) :
  pop p = Ok (u, p') ->
  stack p <> [] /\ stack p' = removelast (stack p) /\ ctx p' = ctx p.
Proof.
  unfold pop. destruct (stack p) eqn:E; [discriminate|].
  intros H; inversion H. repeat split. discriminate.
Qed.

Lemma pushContext_inv (c : valueParserContext) (u : unit)
    (p p' : ValueParser) :
  pushContext c p = Ok (u, p') -> stack p' = stack p /\ ctx p' = ctx p ++ [c].
Proof. unfold pushContext. intros H; inversion H; split; reflexivity. Qed.

Lemma popContext_inv (u : unit) (p p' : ValueParser) :
  popContext p = Ok (u, p') ->
  stack p' = stack p /\ ctx p' = removelast (ctx p).
Proof.
  unfold popContext. destruct (ctx p) eqn:E; [discriminate|].
  intros H; inversion H. split; reflexivity.
Qed.

Lemma context_inv (c : valueParserContext) (p p' : ValueParser) :
  context p = Ok (c, p') -> slice_last (ctx p) = Ok c /\ p' = p.
Proof. unfold context. apply lift_inv. Qed.

Lemma context_index_incr_inv (c' : valueParserContext) (p p' : ValueParser) :
  context_index_incr p = Ok (c', p') ->
  exists c, slice_last (ctx p) = Ok c /\ c' = incr_index c /\
            stack p' = stack p /\
            ctx p' = removelast (ctx p) ++ [incr_index c].
Proof.
  unfold context_index_incr. destruct (slice_last (ctx p)) as [c|];
    [|discriminate].
  intros H; inversion H. exists c. repeat split.
Qed.

Ltac minv :=
  repeat (cbv beta in *;
          match goal with
          | H : bind _ _ _ = Ok _ |- _ =>
              apply bind_inv in H; destruct H as (? & ? & ? & H)
          | H : ret _ _ = Ok _ |- _ =>
              apply ret_inv in H; destruct H as [? ?]
          | H : lift _ _ = Ok _ |- _ =>
              apply lift_inv in H; destruct H as [? ?]
          | H : push _ _ = Ok _ |- _ =>
              apply push_inv in H; destruct H as [? ?]
          | H : pop _ = Ok _ |- _ =>
              apply pop_inv in H; destruct H as (? & ? & ?)
          | H : pushContext _ _ = Ok _ |- _ =>
              apply pushContext_inv in H; destruct H as [? ?]
          | H : popContext _ = Ok _ |- _ =>
              apply popContext_inv in H; destruct H as [? ?]
          | H : @context _ = Ok _ |- _ =>
              apply context_inv in H; destruct H as [? ?]
          | H : context_index_incr _ = Ok _ |- _ =>
              apply context_index_incr_inv in H;
              destruct H as (? & ? & ? & ? & ?)
          | H : value ?p = Ok (_, ?q) |- _ =>
              tryif constr_eq p q then fail
              else (pose proof (value_pure _ H); subst q)
          | H : (if ?b then _ else _) _ = Ok _ |- _ => destruct b eqn:?
          | H : (match ?x with _ => _ end) _ = Ok _ |- _ => destruct x eqn:?
          end).








Ltac chase :=
  repeat match goal with
         | H : ctx ?q = _ |- context [ctx ?q] => rewrite H
         | H : stack ?q = _ |- context [stack ?q] => rewrite H
         end.

Ltac opened_solve :=
  first
    [ left; split; [apply Z.eqb_eq; assumption|chase; reflexivity]
    | right; split;
      [ apply Z.eqb_neq; assumption
      | eexists; chase; reflexivity ] ].

Lemma ParseArrayBegin_inv (n : Z) (e : error) (p p' : ValueParser) :
  ParseArrayBegin p = Ok ((n, e), p') ->
  exists c, opened p p' n c /\ ctx_length c = n /\ e = nil_error.
Proof.
  intros H. unfold ParseArrayBegin in H. minv; subst.
  all: match goal with H : (_, _) = (_, _) |- _ => inversion H; subst end.
  all: eexists; split; [split|split; [|reflexivity]].
  all: try opened_solve.
  all: try (chase; reflexivity).
Qed.

Lemma ParseEnd_inv (e : error) (p p' : ValueParser) :
  ParseArrayEnd p = Ok (e, p') ->
  exists c, slice_last (ctx p) = Ok c /\
            ctx p' = removelast (ctx p) /\
            stack p' = (if ctx_length c =? 0 then stack p
                        else removelast (stack p)) /\
            e = nil_error.
Proof.
  intros H. unfold ParseArrayEnd in H. minv; subst.
  all: eexists; split; [eassumption|].
  all: match goal with H : (_ =? _) = _ |- _ => rewrite H end.
  all: repeat split; congruence.
Qed.

Lemma ParseMapEnd_eq : ParseMapEnd = ParseArrayEnd.
Proof. reflexivity. Qed.

Section BeginOfMap.

Variable LookupStruct : reflect.rtype -> Struct.
Variable omit : StructField -> reflect.Value -> bool.

Lemma ParseMapBegin_inv (n : Z) (e : error) (p p' : ValueParser)
    (v : reflect.Value) :
  value p = Ok (v, p) ->
  ParseMapBegin LookupStruct omit p = Ok ((n, e), p') ->
  exists c, opened p p' n c /\ e = nil_error /\
            ctx_length c =
            (if reflect.Kind_beq (reflect.Value_Kind v) reflect.Map
             then n else 0).
Proof.
  intros Hv H. unfold ParseMapBegin in H.
  unfold bind at 1 in H. rewrite Hv in H. minv; subst.
  all: match goal with H : (_, _) = (_, _) |- _ => inversion H; subst end.
  all: eexists; split; [split|split; [reflexivity|]].
  all: try opened_solve.
  all: try (chase; reflexivity).
Qed.

End BeginOfMap.

Lemma composite_nil_error (e : error) (p p' : ValueParser) :
  ParseArrayNext p = Ok (e, p') \/ ParseMapValue p = Ok (e, p') \/
  ParseMapNext p = Ok (e, p') ->
  e = nil_error.
Proof.
  intros [H|[H|H]];
    [unfold ParseArrayNext in H|unfold ParseMapValue in H
    |unfold ParseMapNext in H];
    minv; congruence.
Qed.

(** ** Balance of the two stacks *)


Lemma count_calls_app (f : Call -> bool) (a b : list Call) :
  count_calls f (a ++ b) = (count_calls f a + count_calls f b)%nat.
Proof.
  unfold count_calls. rewrite filter_app, length_app. reflexivity.
Qed.



Section Balance.

Variable LookupStruct : reflect.rtype -> Struct.
Variable omit : StructField -> reflect.Value -> bool.



Lemma decode_elements_sound (dec : M (list Call)) :
  (forall p tr p', dec p = Ok (tr, p') ->
                   traverse LookupStruct omit p tr p') ->
  forall k p tr p',
    decode_elements dec k p = Ok (tr, p') ->
    elements LookupStruct omit p k tr p'.
Proof.
  intros Hd. induction k as [|k IH]; intros p tr p' H; simpl in H.
  - apply ret_inv in H. destruct H; subst. apply elements_none.
  - destruct k as [|k].
    + apply elements_last. apply Hd. exact H.
    + apply bind_inv in H. destruct H as (tr1 & p1 & H1 & H).
      apply bind_inv in H. destruct H as (e & p2 & H2 & H).
      apply bind_inv in H. destruct H as (tr2 & p3 & H3 & H).
      apply ret_inv in H. destruct H; subst.
      assert (e = nil_error) by (eapply composite_nil_error; eauto).
      subst e. eapply elements_next; eauto.
Qed.

Lemma decode_entries_sound (dec : M (list Call)) :
  (forall p tr p', dec p = Ok (tr, p') ->
                   traverse LookupStruct omit p tr p') ->
  forall k p tr p',
    decode_entries dec k p = Ok (tr, p') ->
    entries LookupStruct omit p k tr p'.
Proof.
  intros Hd. induction k as [|k IH]; intros p tr p' H; simpl in H.
  - apply ret_inv in H. destruct H; subst. apply entries_none.
  - apply bind_inv in H. destruct H as (trk & p1 & H1 & H).
    apply bind_inv in H. destruct H as (e & p2 & H2 & H).
    apply bind_inv in H. destruct H as (trv & p3 & H3 & H).
    assert (e = nil_error) by (eapply composite_nil_error; eauto).
    subst e.
    destruct k as [|k].
    + apply ret_inv in H. destruct H; subst.
      eapply entries_last; eauto.
    + apply bind_inv in H. destruct H as (e & p4 & H4 & H).
      apply bind_inv in H. destruct H as (tr' & p5 & H5 & H).
      apply ret_inv in H. destruct H; subst.
      assert (e = nil_error) by (eapply composite_nil_error; eauto).
      subst e. eapply entries_next; eauto.
Qed.

(** Every run of the decoder is a traversal of the grammar. *)
Lemma decode_sound (fuel : nat) :
  forall p tr p',
    decode LookupStruct omit fuel p = Ok (tr, p') ->
    traverse LookupStruct omit p tr p'.
Proof.
  induction fuel as [|fuel IH]; intros p tr p' H; [discriminate H|].
  simpl in H. apply bind_inv in H. destruct H as ([t e] & p1 & Ht & H).
  destruct e as [msg|].
  - assert (Hr : ret [CallParseType] p1 = Ok (tr, p'))
      by (destruct t; exact H).
    apply ret_inv in Hr. destruct Hr; subst.
    eapply traverse_unsupported. exact Ht.
  - destruct t; simpl in H.
    11: { (* Array *)
      apply bind_inv in H. destruct H as ([n e] & p2 & Hb & H).
      apply bind_inv in H. destruct H as (tr1 & p3 & Hel & H).
      apply bind_inv in H. destruct H as (e' & p4 & He & H).
      apply ret_inv in H. destruct H; subst.
      assert (Hb' := Hb). apply ParseArrayBegin_inv in Hb'.
      destruct Hb' as (c & _ & _ & ->).
      assert (He' := He). apply ParseEnd_inv in He'.
      destruct He' as (c' & _ & _ & _ & ->).
      eapply traverse_type; [exact Ht|].
      eapply traverse_array; [exact Hb| |exact He].
      eapply decode_elements_sound; [exact IH|exact Hel]. }
    11: { (* Map *)
      apply bind_inv in H. destruct H as (v & p2 & Hv & H).
      assert (p2 = p1) by (eapply value_pure; exact Hv). subst p2.
      apply bind_inv in H. destruct H as ([n e] & p2 & Hb & H).
      apply bind_inv in H. destruct H as (tr1 & p3 & Hel & H).
      apply bind_inv in H. destruct H as (e' & p4 & He & H).
      apply ret_inv in H. destruct H; subst.
      assert (Hb' := Hb). apply (ParseMapBegin_inv _ _ Hv) in Hb'.
      destruct Hb' as (c & _ & -> & _).
      assert (He' := He). rewrite ParseMapEnd_eq in He'.
      apply ParseEnd_inv in He'.
      destruct He' as (c' & _ & _ & _ & ->).
      eapply traverse_type; [exact Ht|].
      eapply traverse_map; [exact Hv|exact Hb| |exact He].
      eapply decode_entries_sound; [exact IH|exact Hel]. }
    all: apply bind_inv in H; destruct H as (r & p2 & Hg & H);
      apply ret_inv in H; destruct H; subst;
      (eapply traverse_type; [exact Ht|]);
      eapply traverse_scalar; exact Hg.
Qed.


End Balance.



(** ** Arrays *)

Lemma stack_top (p : ValueParser) (rest : list reflect.Value)
    (top : reflect.Value) :
  stack p = rest ++ [top] ->
  pop p = Ok (tt, {| stack := rest; ctx := ctx p |}).
Proof.
  intros H. unfold pop. rewrite H.
  destruct (rest ++ [top]) eqn:E; [destruct rest; discriminate|].
  rewrite <- E, removelast_last. reflexivity.
Qed.

Lemma ParseArrayBegin_sequence (p : ValueParser) (v : reflect.Value) (n : Z) :
  value p = Ok (v, p) ->
  reflect.Value_Kind v = reflect.Slice \/
  reflect.Value_Kind v = reflect.Array ->
  reflect.Value_Len v = Ok n ->
  n <> 0 ->
  exists x,
    reflect.Value_Index v 0 = Ok x /\
    ParseArrayBegin p =
    Ok ((n, nil_error),
        {| stack := stack p ++ [x];
           ctx := ctx p ++ [new_context n v None []] |}).
Proof.
  intros Hv Hk Hl Hn.
  assert (Hx : exists x, reflect.Value_Index v 0 = Ok x).
  { destruct v as [| | k | k | k | | ? ? ? l | ? ? ? l | | | | | k];
      try destruct k; simpl in Hk; try (exfalso; intuition discriminate);
      simpl in Hl; inversion Hl; subst n;
      (destruct l as [|x l]; [exfalso; apply Hn; reflexivity|]);
      exists x; apply slice_index_0. }
  destruct Hx as [x Hx]. exists x. split; [exact Hx|].
  unfold ParseArrayBegin, bind. rewrite Hv. unfold lift. rewrite Hl.
  simpl. apply Z.eqb_neq in Hn. rewrite Hn, Hx. reflexivity.
Qed.

Lemma ParseArrayNext_step (p : ValueParser) (cs : list valueParserContext)
    (c : valueParserContext) (rest : list reflect.Value)
    (top x : reflect.Value) :
  ctx p = cs ++ [c] ->
  stack p = rest ++ [top] ->
  reflect.Value_Index (ctx_value c) (int_wrap (ctx_index c + 1)) = Ok x ->
  ParseArrayNext p =
  Ok (nil_error, {| stack := rest ++ [x]; ctx := cs ++ [incr_index c] |}).
Proof.
  intros Hc Hs Hx.
  unfold ParseArrayNext, bind, context_index_incr.
  rewrite Hc, slice_last_app, removelast_last.
  erewrite stack_top by (simpl; exact Hs).
  simpl. unfold lift. rewrite Hx. reflexivity.
Qed.

(** C5: on [[]int{1, 2, 3}], [ParseArrayBegin] returns 3 and puts the
    element 1 on top; [ParseInt] reads 1, then 2 and 3 after one
    [ParseArrayNext] each, and [ParseArrayEnd] then returns, leaving the
    parser as it was at first.  In general [ParseArrayBegin] on a slice or
    array that is not empty pushes the element at index 0, and
    [ParseArrayNext] replaces the top of the stack by the element at the
    index of the context plus one, which it stores in the context. *)
Theorem array_replay :
  (exists p1 p2 p3,
      ParseArrayBegin (NewValueParser (Some demo.ints123))
      = Ok ((3, nil_error), p1) /\
      slice_last (stack p1) = Ok (demo.int 1) /\
      ParseInt p1 = Ok ((1, nil_error), p1) /\
      ParseArrayNext p1 = Ok (nil_error, p2) /\
      ParseInt p2 = Ok ((2, nil_error), p2) /\
      ParseArrayNext p2 = Ok (nil_error, p3) /\
      ParseInt p3 = Ok ((3, nil_error), p3) /\
      ParseArrayEnd p3
      = Ok (nil_error, NewValueParser (Some demo.ints123))) /\
  (forall p v n,
      value p = Ok (v, p) ->
      reflect.Value_Kind v = reflect.Slice \/
      reflect.Value_Kind v = reflect.Array ->
      reflect.Value_Len v = Ok n ->
      n <> 0 ->
      exists x,
        reflect.Value_Index v 0 = Ok x /\
        ParseArrayBegin p =
        Ok ((n, nil_error),
            {| stack := stack p ++ [x];
               ctx := ctx p ++ [new_context n v None []] |})) /\
  (forall p cs c rest top x,
      ctx p = cs ++ [c] ->
      stack p = rest ++ [top] ->
      0 <= ctx_index c < 2 ^ 63 - 1 ->
      reflect.Value_Index (ctx_value c) (ctx_index c + 1) = Ok x ->
      ParseArrayNext p =
      Ok (nil_error,
          {| stack := rest ++ [x]; ctx := cs ++ [incr_index c] |}) /\
      ctx_index (incr_index c) = ctx_index c + 1).
Proof.
  split; [|split].
  - do 3 eexists. repeat split; vm_compute; reflexivity.
  - intros p v n. apply ParseArrayBegin_sequence.
  - intros p cs c rest top x Hc Hs Hi Hx.
    assert (Hw : int_wrap (ctx_index c + 1) = ctx_index c + 1)
      by (apply int_wrap_small; lia).
    split.
    + eapply ParseArrayNext_step; [exact Hc|exact Hs|].
      rewrite Hw. exact Hx.
    + simpl. exact Hw.
Qed.

Lemma array_replay_witness :
  (exists x,
      reflect.Value_Index demo.ints123 0 = Ok x /\
      ParseArrayBegin (NewValueParser (Some demo.ints123)) =
      Ok ((3, nil_error),
          {| stack := stack (NewValueParser (Some demo.ints123)) ++ [x];
             ctx := ctx (NewValueParser (Some demo.ints123))
                    ++ [new_context 3 demo.ints123 None []] |})) /\
  (ParseArrayNext demo.in_ints123 =
   Ok (nil_error,
       {| stack := [demo.ints123] ++ [demo.int 2];
          ctx := [] ++ [incr_index (new_context 3 demo.ints123 None [])] |}) /\
   ctx_index (incr_index (new_context 3 demo.ints123 None [])) = 0 + 1).
Proof.
  destruct array_replay as (_ & H2 & H3). split.
  - apply (H2 (NewValueParser (Some demo.ints123)) demo.ints123 3).
    + reflexivity.
    + left. reflexivity.
    + reflexivity.
    + discriminate.
  - apply (H3 demo.in_ints123 [] (new_context 3 demo.ints123 None [])
             [demo.ints123] (demo.int 1) (demo.int 2)).
    + reflexivity.
    + reflexivity.
    + simpl. lia.
    + reflexivity.
Defined.

(** ** Maps and structs *)

Lemma ParseMapValue_step (p : ValueParser) (cs : list valueParserContext)
    (c : valueParserContext) (rest : list reflect.Value)
    (top e : reflect.Value) :
  ctx p = cs ++ [c] ->
  stack p = rest ++ [top] ->
  match ctx_keys c with
  | Some keys =>
      exists k, slice_index keys (ctx_index c) = Ok k /\
                reflect.Value_MapIndex (ctx_value c) k = Ok e
  | None =>
      exists f, slice_index (ctx_fields c) (ctx_index c) = Ok f /\
                reflect.Value_FieldByIndex (ctx_value c) (Index f) = Ok e
  end ->
  ParseMapValue p = Ok (nil_error, {| stack := rest ++ [e]; ctx := ctx p |}).
Proof.
  intros Hc Hs He.
  unfold ParseMapValue, bind, context, lift.
  rewrite Hc, slice_last_app. rewrite <- Hc.
  erewrite stack_top by exact Hs.
  destruct (ctx_keys c) as [keys|]; destruct He as (k & Hk & Hv);
    rewrite Hk, Hv; reflexivity.
Qed.

(** C3 (amended): [ParseMapValue] removes the entry on top of the value
    stack, which is the current key, and pushes in its place the value of
    the current key (by [MapIndex]) or of the current field (by
    [FieldByIndex]); the entries below and the context stack stay as they
    are, and the key is still [keys[index]] in the context. *)
Theorem ParseMapValue_replaces_top
    (p : ValueParser) (cs : list valueParserContext)
    (c : valueParserContext) (rest : list reflect.Value)
    (top : reflect.Value) :
  ctx p = cs ++ [c] ->
  stack p = rest ++ [top] ->
  (forall keys k e,
      ctx_keys c = Some keys ->
      slice_index keys (ctx_index c) = Ok k ->
      reflect.Value_MapIndex (ctx_value c) k = Ok e ->
      ParseMapValue p
      = Ok (nil_error, {| stack := rest ++ [e]; ctx := ctx p |})) /\
  (forall f e,
      ctx_keys c = None ->
      slice_index (ctx_fields c) (ctx_index c) = Ok f ->
      reflect.Value_FieldByIndex (ctx_value c) (Index f) = Ok e ->
      ParseMapValue p
      = Ok (nil_error, {| stack := rest ++ [e]; ctx := ctx p |})).
Proof.
  intros Hc Hs. split.
  - intros keys k e Hk Hi He.
    eapply ParseMapValue_step; [exact Hc|exact Hs|].
    rewrite Hk. exists k. tauto.
  - intros f e Hk Hi He.
    eapply ParseMapValue_step; [exact Hc|exact Hs|].
    rewrite Hk. exists f. tauto.
Qed.

Lemma ParseMapValue_replaces_top_witness :
  ParseMapValue demo.in_map_a1
  = Ok (nil_error,
        {| stack := [demo.map_a1] ++ [demo.int 1];
           ctx := ctx demo.in_map_a1 |}) /\
  ParseMapValue demo.in_record
  = Ok (nil_error,
        {| stack := [demo.record] ++ [demo.str "x"];
           ctx := ctx demo.in_record |}).
Proof.
  split.
  - destruct (@ParseMapValue_replaces_top demo.in_map_a1 []
                (new_context 1 demo.map_a1 (Some [demo.str "a"]) [])
                [demo.map_a1] (demo.str "a") eq_refl eq_refl) as [H _].
    apply (H [demo.str "a"] (demo.str "a") (demo.int 1)); reflexivity.
  - destruct (@ParseMapValue_replaces_top demo.in_record []
                (new_context 0 demo.record None
                   [ {| Index := [1]; Name := "B" |} ])
                [demo.record] (demo.str "B") eq_refl eq_refl) as [_ H].
    apply (H {| Index := [1]; Name := "B" |} (demo.str "x")); reflexivity.
Defined.

(** C3 (counterexample): after [ParseMapBegin] on [map[string]int{"a": 1}]
    the stack holds the map and the key "a"; [ParseMapValue] leaves the map
    and the value 1: the key was removed from the stack, which is as long
    as before. *)
Lemma ParseMapValue_removes_the_key :
  ParseMapBegin demo.LookupStruct demo.omit
    (NewValueParser (Some demo.map_a1))
  = Ok ((1, nil_error), demo.in_map_a1) /\
  stack demo.in_map_a1 = [demo.map_a1; demo.str "a"] /\
  exists p',
    ParseMapValue demo.in_map_a1 = Ok (nil_error, p') /\
    stack p' = [demo.map_a1; demo.int 1] /\
    ~ In (demo.str "a") (stack p') /\
    List.length (stack p') = List.length (stack demo.in_map_a1).
Proof.
  split; [reflexivity|]. split; [reflexivity|].
  eexists. split; [reflexivity|]. split; [reflexivity|].
  split; [|reflexivity].
  simpl. intros [H|[H|[]]]; discriminate H.
Qed.

Section BeginOfStruct.

Variable LookupStruct : reflect.rtype -> Struct.
Variable omit : StructField -> reflect.Value -> bool.

Lemma range_fields_eq (v : reflect.Value) (fs : list StructField) :
  (forall f, In f fs ->
             exists fv, reflect.Value_FieldByIndex v (Index f) = Ok fv) ->
  forall kept n,
    0 <= n ->
    n + Z.of_nat (List.length fs) < 2 ^ 63 ->
    range_fields omit v fs kept n =
    Ok (kept ++ kept_fields omit v fs,
        n + Z.of_nat (List.length (kept_fields omit v fs))).
Proof.
  induction fs as [|f fs IH]; intros Hf kept n Hn Hlen.
  - simpl. rewrite app_nil_r, Z.add_0_r. reflexivity.
  - destruct (Hf f (in_eq f fs)) as [fv Hfv].
    assert (Hf' : forall g, In g fs ->
                    exists gv, reflect.Value_FieldByIndex v (Index g) = Ok gv)
      by (intros g Hg; apply Hf; right; exact Hg).
    simpl List.length in Hlen. rewrite Nat2Z.inj_succ in Hlen.
    assert (Hfield : field_value v f = fv)
      by (unfold field_value; rewrite Hfv; reflexivity).
    change (kept_fields omit v (f :: fs))
      with (if negb (omit f (field_value v f))
            then f :: kept_fields omit v fs else kept_fields omit v fs).
    rewrite Hfield.
    simpl range_fields. rewrite Hfv. simpl res_bind.
    destruct (omit f fv); simpl negb; cbv iota.
    + apply IH; [exact Hf'|exact Hn|lia].
    + rewrite int_wrap_small by lia.
      rewrite (IH Hf' (kept ++ [f]) (n + 1)) by lia.
      rewrite <- app_assoc. simpl List.length. rewrite Nat2Z.inj_succ.
      f_equal. f_equal. lia.
Qed.

Lemma ParseMapBegin_struct (p : ValueParser) (v : reflect.Value)
    (t : reflect.rtype) :
  value p = Ok (v, p) ->
  reflect.Value_Kind v = reflect.Struct ->
  reflect.Value_Type v = Ok t ->
  Z.of_nat (List.length (Fields (LookupStruct t))) < 2 ^ 63 ->
  (forall f, In f (Fields (LookupStruct t)) ->
             exists fv, reflect.Value_FieldByIndex v (Index f) = Ok fv) ->
  ParseMapBegin LookupStruct omit p =
  Ok ((Z.of_nat (List.length
                   (kept_fields omit v (Fields (LookupStruct t)))),
       nil_error),
      {| stack := stack p
                  ++ first_name (kept_fields omit v (Fields (LookupStruct t)));
         ctx := ctx p
                ++ [new_context 0 v None
                      (kept_fields omit v (Fields (LookupStruct t)))] |}).
Proof.
  intros Hv Hk Ht Hlen Hf.
  unfold ParseMapBegin, bind. rewrite Hv, Hk.
  change (reflect.Kind_beq reflect.Struct reflect.Map) with false.
  cbv iota. unfold lift. rewrite Ht.
  rewrite (@range_fields_eq v (Fields (LookupStruct t)) Hf [] 0) by lia.
  cbn [fst snd app]. rewrite Z.add_0_l. unfold pushContext.
  destruct (kept_fields omit v (Fields (LookupStruct t))) as [|f kept].
  - simpl. rewrite app_nil_r. reflexivity.
  - replace (Z.of_nat (List.length (f :: kept)) =? 0) with false
      by (symmetry; apply Z.eqb_neq; simpl List.length; lia).
    rewrite slice_index_0. reflexivity.
Qed.

End BeginOfStruct.

(** C7: for a struct value and the fields that [LookupStruct] lists for
    its type, [ParseMapBegin] returns the number of fields that [omit]
    does not omit and, when there is one, pushes the name of the first of
    them; for [{A: 0, B: "x"}] under omit-zero it returns 1, the key is
    "B" and, after [ParseMapValue], its value is "x". *)
Theorem ParseMapBegin_counts_fields_not_omitted :
  (forall LookupStruct omit p v t,
      value p = Ok (v, p) ->
      reflect.Value_Kind v = reflect.Struct ->
      reflect.Value_Type v = Ok t ->
      Z.of_nat (List.length (Fields (LookupStruct t))) < 2 ^ 63 ->
      (forall f, In f (Fields (LookupStruct t)) ->
                 exists fv, reflect.Value_FieldByIndex v (Index f) = Ok fv) ->
      ParseMapBegin LookupStruct omit p =
      Ok ((Z.of_nat (List.length
                       (kept_fields omit v (Fields (LookupStruct t)))),
           nil_error),
          {| stack := stack p
                      ++ first_name
                           (kept_fields omit v (Fields (LookupStruct t)));
             ctx := ctx p
                    ++ [new_context 0 v None
                          (kept_fields omit v (Fields (LookupStruct t)))] |}))
  /\
  (exists p1 p2,
      ParseMapBegin demo.LookupStruct demo.omit
        (NewValueParser (Some demo.record))
      = Ok ((1, nil_error), p1) /\
      ParseString p1 = Ok (("B"%string, nil_error), p1) /\
      ParseMapValue p1 = Ok (nil_error, p2) /\
      ParseString p2 = Ok (("x"%string, nil_error), p2)).
Proof.
  split.
  - intros LookupStruct omit p v t. apply ParseMapBegin_struct.
  - do 2 eexists. repeat split; vm_compute; reflexivity.
Qed.

Lemma ParseMapBegin_counts_fields_not_omitted_witness :
  ParseMapBegin demo.LookupStruct demo.omit
    (NewValueParser (Some demo.record))
  = Ok ((Z.of_nat
           (List.length
              (kept_fields demo.omit demo.record
                 (Fields (demo.LookupStruct demo.record_type)))),
         nil_error),
        {| stack := stack (NewValueParser (Some demo.record))
                    ++ first_name
                         (kept_fields demo.omit demo.record
                            (Fields (demo.LookupStruct demo.record_type)));
           ctx := ctx (NewValueParser (Some demo.record))
                  ++ [new_context 0 demo.record None
                        (kept_fields demo.omit demo.record
                           (Fields (demo.LookupStruct demo.record_type)))]
        |}).
Proof.
  destruct ParseMapBegin_counts_fields_not_omitted as [H _].
  apply (H demo.LookupStruct demo.omit
           (NewValueParser (Some demo.record)) demo.record
           demo.record_type).
  - reflexivity.
  - reflexivity.
  - reflexivity.
  - vm_compute. reflexivity.
  - intros f Hf. simpl in Hf. destruct Hf as [<-|[<-|[]]].
    + exists (demo.int 0). reflexivity.
    + exists (demo.str "x"). reflexivity.
Defined.

(** ** How the calls on an array compose *)

Lemma slice_index_nth (A : Type) (l : list A) (k : nat) (x : A) :
  nth_error l k = Some x -> slice_index l (Z.of_nat k) = Ok x.
Proof.
  intros H. unfold slice_index.
  assert (Hk : (k < List.length l)%nat)
    by (apply nth_error_Some; rewrite H; discriminate).
  replace (0 <=? Z.of_nat k) with true by (symmetry; apply Z.leb_le; lia).
  replace (Z.of_nat k <? Z.of_nat (List.length l)) with true
    by (symmetry; apply Z.ltb_lt; lia).
  simpl. rewrite Nat2Z.id, H. reflexivity.
Qed.

Lemma slice_index_beyond (A : Type) (l : list A) (i : Z) :
  Z.of_nat (List.length l) <= i -> slice_index l i = Panic.
Proof.
  intros H. unfold slice_index.
  replace (i <? Z.of_nat (List.length l)) with false
    by (symmetry; apply Z.ltb_ge; exact H).
  rewrite andb_false_r. reflexivity.
Qed.

Lemma Value_elements_spec (v : reflect.Value) (l : list reflect.Value) :
  Value_elements v = Some l ->
  (reflect.Value_Kind v = reflect.Slice \/
   reflect.Value_Kind v = reflect.Array) /\
  reflect.Value_Len v = Ok (Z.of_nat (List.length l)) /\
  forall i, reflect.Value_Index v i = slice_index l i.
Proof.
  destruct v; simpl; intros H; inversion H; subst;
    (split; [tauto|split; reflexivity]).
Qed.

Lemma parser_eta (p : ValueParser) :
  {| stack := stack p; ctx := ctx p |} = p.
Proof. destruct p; reflexivity. Qed.

Lemma incr_iterating (n : Z) (v : reflect.Value)
    (keys : option (list reflect.Value)) (fields : list StructField)
    (i : nat) :
  Z.of_nat (S i) < 2 ^ 63 ->
  incr_index (iterating n v keys fields i) = iterating n v keys fields (S i).
Proof.
  intros H. unfold incr_index, iterating. simpl.
  rewrite int_wrap_small by lia. f_equal. lia.
Qed.

(** [End] removes the innermost context, and the top of the value stack
    when the length recorded in that context is not zero. *)
Lemma End_pops (p : ValueParser) (cs : list valueParserContext)
    (c : valueParserContext) (rest : list reflect.Value)
    (top : reflect.Value) :
  ctx p = cs ++ [c] ->
  stack p = rest ++ [top] ->
  ctx_length c <> 0 ->
  ParseArrayEnd p = Ok (nil_error, {| stack := rest; ctx := cs |}).
Proof.
  intros Hc Hs Hl.
  unfold ParseArrayEnd, bind, context, lift.
  replace (slice_last (ctx p)) with (Ok c)
    by (rewrite Hc; symmetry; apply slice_last_app).
  apply Z.eqb_neq in Hl. rewrite Hl.
  erewrite stack_top by exact Hs.
  unfold popContext. simpl. rewrite Hc.
  destruct (cs ++ [c]) eqn:E; [destruct cs; discriminate|].
  rewrite <- E, removelast_last. reflexivity.
Qed.

Lemma End_keeps (p : ValueParser) (cs : list valueParserContext)
    (c : valueParserContext) :
  ctx p = cs ++ [c] ->
  ctx_length c = 0 ->
  ParseArrayEnd p = Ok (nil_error, {| stack := stack p; ctx := cs |}).
Proof.
  intros Hc Hl.
  unfold ParseArrayEnd, bind, context, lift.
  replace (slice_last (ctx p)) with (Ok c)
    by (rewrite Hc; symmetry; apply slice_last_app).
  rewrite Hl. simpl.
  unfold popContext. rewrite Hc.
  destruct (cs ++ [c]) eqn:E; [destruct cs; discriminate|].
  rewrite <- E, removelast_last. reflexivity.
Qed.

Lemma repeat_call_panics (k : nat) (m : M error) (p : ValueParser) :
  repeat_call k m p = Panic -> repeat_call (S k) m p = Panic.
Proof. intros H. simpl. unfold bind at 1. rewrite H. reflexivity. Qed.

Lemma repeat_call_step (k : nat) (m : M error) (p q : ValueParser) :
  repeat_call k m p = Ok (tt, q) ->
  repeat_call (S k) m p =
  match m q with
  | Ok (_, q') => Ok (tt, q')
  | Panic => Panic
  end.
Proof.
  intros H. simpl. unfold bind at 1. rewrite H.
  unfold bind, ret. destruct (m q) as [[e q']|]; reflexivity.
Qed.

Section ArrayReplay.

Variable p : ValueParser.
Variable v : reflect.Value.
Variable l : list reflect.Value.
Hypothesis Hv : value p = Ok (v, p).
Hypothesis Hl : Value_elements v = Some l.
Hypothesis Hlen : Z.of_nat (List.length l) < 2 ^ 63.

Lemma array_begin_then (B : Type) (k : M B) (x : reflect.Value) :
  nth_error l 0 = Some x ->
  (ParseArrayBegin ;; k) p =
  k (inside p (iterating (Z.of_nat (List.length l)) v None [] 0) x).
Proof.
  intros Hx.
  destruct (Value_elements_spec _ Hl) as (Hk & HL & HI).
  destruct (@ParseArrayBegin_sequence p v _ Hv Hk HL) as (x0 & Hx0 & Hb).
  { assert (0 < List.length l)%nat
      by (apply nth_error_Some; rewrite Hx; discriminate).
    lia. }
  rewrite HI in Hx0.
  assert (E := slice_index_nth _ 0 Hx). simpl Z.of_nat in E.
  rewrite E in Hx0. inversion Hx0; subst x0.
  unfold bind at 1. rewrite Hb. reflexivity.
Qed.

Lemma array_begin_empty (B : Type) (k : M B) :
  l = [] ->
  (ParseArrayBegin ;; k) p =
  k {| stack := stack p; ctx := ctx p ++ [iterating 0 v None [] 0] |}.
Proof.
  intros El.
  destruct (Value_elements_spec _ Hl) as (Hk & HL & HI).
  unfold bind at 1. unfold ParseArrayBegin, bind. rewrite Hv.
  unfold lift. rewrite HL, El. reflexivity.
Qed.

Lemma array_after_nexts (k : nat) (x : reflect.Value) :
  nth_error l k = Some x ->
  (ParseArrayBegin ;; repeat_call k ParseArrayNext) p
  = Ok (tt, inside p (iterating (Z.of_nat (List.length l)) v None [] k) x).
Proof.
  revert x. induction k as [|k IH]; intros x Hx.
  - rewrite (array_begin_then _ Hx). reflexivity.
  - assert (Hk : (S k < List.length l)%nat)
      by (apply nth_error_Some; rewrite Hx; discriminate).
    destruct (nth_error l k) as [y|] eqn:Hy;
      [|apply nth_error_None in Hy; lia].
    destruct (nth_error l 0) as [x0|] eqn:H0;
      [|apply nth_error_None in H0; lia].
    specialize (IH y eq_refl).
    rewrite (array_begin_then (repeat_call k ParseArrayNext) H0) in IH.
    rewrite (array_begin_then (repeat_call (S k) ParseArrayNext) H0).
    erewrite repeat_call_step by exact IH.
    destruct (Value_elements_spec _ Hl) as (_ & _ & HI).
    erewrite ParseArrayNext_step; [| reflexivity | reflexivity |].
    + rewrite incr_iterating by lia. reflexivity.
    + simpl ctx_value. simpl ctx_index.
      rewrite int_wrap_small by lia.
      replace (Z.of_nat k + 1) with (Z.of_nat (S k)) by lia.
      rewrite HI. apply slice_index_nth. exact Hx.
Qed.

End ArrayReplay.

Lemma value_on_top (p : ValueParser) (c : valueParserContext)
    (x : reflect.Value) :
  value (inside p c x) = Ok (resolve x, inside p c x).
Proof.
  rewrite value_eq. unfold inside. simpl stack.
  rewrite slice_last_app. reflexivity.
Qed.

Lemma value_stack_nonempty (p : ValueParser) (v : reflect.Value) :
  value p = Ok (v, p) -> exists rest top, stack p = rest ++ [top].
Proof.
  intros H. destruct (stack p) as [|a s] eqn:E.
  - assert (Hp : value p = Panic) by (apply value_panics; exact E).
    rewrite Hp in H. discriminate.
  - destruct (@exists_last _ (a :: s)) as (rest & top & Hr); [discriminate|].
    exists rest, top. exact Hr.
Qed.

Lemma Next_out_of_range (q : ValueParser) (cs : list valueParserContext)
    (c : valueParserContext) :
  ctx q = cs ++ [c] ->
  reflect.Value_Index (ctx_value c) (int_wrap (ctx_index c + 1)) = Panic ->
  ParseArrayNext q = Panic.
Proof.
  intros Hc Hi. unfold ParseArrayNext, bind, context_index_incr.
  rewrite Hc, slice_last_app.
  match goal with |- context [pop ?s] => destruct (pop s) as [[u s']|] end;
    [|reflexivity].
  unfold lift. simpl ctx_value. simpl ctx_index. rewrite Hi. reflexivity.
Qed.

(** X1: on a slice or array, [ParseArrayBegin] followed by [k] calls of
    [ParseArrayNext], for [k] below the length, leaves the element at
    index [k] on top of the value stack, above the stack as it was, and
    the index [k] in the new context; [value] then resolves that
    element. *)
Theorem array_nexts_reach_element
    (p : ValueParser) (v : reflect.Value) (l : list reflect.Value)
    (k : nat) (x : reflect.Value) :
  value p = Ok (v, p) ->
  Value_elements v = Some l ->
  Z.of_nat (List.length l) < 2 ^ 63 ->
  nth_error l k = Some x ->
  (ParseArrayBegin ;; repeat_call k ParseArrayNext) p
  = Ok (tt, inside p (iterating (Z.of_nat (List.length l)) v None [] k) x) /\
  value (inside p (iterating (Z.of_nat (List.length l)) v None [] k) x)
  = Ok (resolve x,
        inside p (iterating (Z.of_nat (List.length l)) v None [] k) x).
Proof.
  intros Hv Hl Hlen Hx. split.
  - apply array_after_nexts; assumption.
  - apply value_on_top.
Qed.

Lemma array_nexts_reach_element_witness :
  (ParseArrayBegin ;; repeat_call 2 ParseArrayNext)
    (NewValueParser (Some demo.ints123))
  = Ok (tt, inside (NewValueParser (Some demo.ints123))
              (iterating 3 demo.ints123 None [] 2) (demo.int 3)) /\
  value (inside (NewValueParser (Some demo.ints123))
           (iterating 3 demo.ints123 None [] 2) (demo.int 3))
  = Ok (resolve (demo.int 3),
        inside (NewValueParser (Some demo.ints123))
          (iterating 3 demo.ints123 None [] 2) (demo.int 3)).
Proof.
  apply (@array_nexts_reach_element
           (NewValueParser (Some demo.ints123)) demo.ints123
           [demo.int 1; demo.int 2; demo.int 3] 2 (demo.int 3)).
  - reflexivity.
  - reflexivity.
  - simpl. lia.
  - reflexivity.
Defined.

(** X2: on a slice or array, as many [ParseArrayNext] calls after
    [ParseArrayBegin] as there are elements (at least one) panic: the call
    past the last element indexes out of range, and no call returns a
    signal for the end of the sequence. *)
Theorem array_next_past_the_end_panics
    (p : ValueParser) (v : reflect.Value) (l : list reflect.Value)
    (k : nat) :
  value p = Ok (v, p) ->
  Value_elements v = Some l ->
  Z.of_nat (List.length l) < 2 ^ 63 ->
  (List.length l <= k)%nat ->
  (0 < k)%nat ->
  (ParseArrayBegin ;; repeat_call k ParseArrayNext) p = Panic.
Proof.
  intros Hv Hl Hlen. induction k as [|k IH]; intros Hk Hpos; [lia|].
  destruct (Value_elements_spec _ Hl) as (_ & _ & HI).
  destruct (Nat.le_gt_cases (List.length l) k) as [Hle|Hlt].
  - destruct k as [|k'].
    + (* no element, one Next *)
      assert (El : l = []) by (destruct l; [reflexivity|simpl in Hle; lia]).
      rewrite (array_begin_empty Hv Hl (repeat_call 1 ParseArrayNext) El).
      erewrite repeat_call_step by reflexivity.
      erewrite Next_out_of_range; [reflexivity|reflexivity|].
      simpl ctx_value. rewrite HI, El. reflexivity.
    + specialize (IH Hle ltac:(lia)).
      unfold bind at 1. unfold bind at 1 in IH.
      destruct (ParseArrayBegin p) as [[a p1]|]; [|reflexivity].
      apply repeat_call_panics. exact IH.
  - destruct (nth_error l k) as [y|] eqn:Hy;
      [|apply nth_error_None in Hy; lia].
    destruct (nth_error l 0) as [x0|] eqn:H0;
      [|apply nth_error_None in H0; lia].
    assert (Hs := array_after_nexts Hv Hl Hlen _ Hy).
    rewrite (array_begin_then Hv Hl (repeat_call k ParseArrayNext) H0) in Hs.
    rewrite (array_begin_then Hv Hl (repeat_call (S k) ParseArrayNext) H0).
    erewrite repeat_call_step by exact Hs.
    erewrite Next_out_of_range; [reflexivity|reflexivity|].
    simpl ctx_value. simpl ctx_index. rewrite HI.
    rewrite int_wrap_small by lia.
    apply slice_index_beyond. lia.
Qed.

Lemma array_next_past_the_end_panics_witness :
  (ParseArrayBegin ;; repeat_call 3 ParseArrayNext)
    (NewValueParser (Some demo.ints123)) = Panic.
Proof.
  apply (@array_next_past_the_end_panics
           (NewValueParser (Some demo.ints123)) demo.ints123
           [demo.int 1; demo.int 2; demo.int 3] 3).
  - reflexivity.
  - reflexivity.
  - simpl. lia.
  - simpl. lia.
  - lia.
Defined.

(** X3: on a slice or array, [ParseArrayBegin], then [k] calls of
    [ParseArrayNext] ([k] below the length, or none at all on an empty
    sequence), then [ParseArrayEnd] return the parser exactly as it was:
    a traversal can be closed after any element. *)
Theorem array_end_restores_the_parser
    (p : ValueParser) (v : reflect.Value) (l : list reflect.Value)
    (k : nat) :
  value p = Ok (v, p) ->
  Value_elements v = Some l ->
  Z.of_nat (List.length l) < 2 ^ 63 ->
  k = 0%nat \/ (k < List.length l)%nat ->
  (ParseArrayBegin ;; repeat_call k ParseArrayNext ;; ParseArrayEnd) p
  = Ok (nil_error, p).
Proof.
  intros Hv Hl Hlen Hk.
  destruct l as [|x0 l'] eqn:El.
  - assert (k = 0%nat) by (destruct Hk; [assumption|simpl in *; lia]).
    subst k.
    rewrite (array_begin_empty Hv Hl
               (repeat_call 0 ParseArrayNext ;; ParseArrayEnd) eq_refl).
    unfold bind at 1. simpl repeat_call. unfold ret at 1.
    erewrite End_keeps; [|reflexivity|reflexivity].
    simpl. rewrite parser_eta. reflexivity.
  - rewrite <- El in *.
    assert (Hk' : (k < List.length l)%nat)
      by (destruct Hk; [subst k; rewrite El; simpl; lia|assumption]).
    destruct (nth_error l k) as [y|] eqn:Hy;
      [|apply nth_error_None in Hy; lia].
    assert (H0 : nth_error l 0 = Some x0) by (rewrite El; reflexivity).
    assert (Hs := array_after_nexts Hv Hl Hlen _ Hy).
    rewrite (array_begin_then Hv Hl (repeat_call k ParseArrayNext) H0) in Hs.
    rewrite (array_begin_then Hv Hl
               (repeat_call k ParseArrayNext ;; ParseArrayEnd) H0).
    unfold bind at 1. rewrite Hs.
    erewrite End_pops; [|reflexivity|reflexivity|].
    + rewrite parser_eta. reflexivity.
    + simpl. rewrite El. simpl List.length. lia.
Qed.

Lemma array_end_restores_the_parser_witness :
  (ParseArrayBegin ;; repeat_call 1 ParseArrayNext ;; ParseArrayEnd)
    (NewValueParser (Some demo.ints123))
  = Ok (nil_error, NewValueParser (Some demo.ints123)).
Proof.
  apply (@array_end_restores_the_parser
           (NewValueParser (Some demo.ints123)) demo.ints123
           [demo.int 1; demo.int 2; demo.int 3] 1).
  - reflexivity.
  - reflexivity.
  - simpl. lia.
  - right. simpl. lia.
Defined.

(** ** How the calls on a map or struct compose *)

Lemma ParseMapValue_eq (q : ValueParser) (cs : list valueParserContext)
    (c : valueParserContext) (rest : list reflect.Value)
    (top : reflect.Value) :
  ctx q = cs ++ [c] ->
  stack q = rest ++ [top] ->
  ParseMapValue q =
  match child_value (ctx_value c) (ctx_keys c) (ctx_fields c) (ctx_index c)
  with
  | Ok e => Ok (nil_error, {| stack := rest ++ [e]; ctx := ctx q |})
  | Panic => Panic
  end.
Proof.
  intros Hc Hs.
  unfold ParseMapValue, bind, context, lift, child_value.
  rewrite Hc, slice_last_app. rewrite <- Hc.
  erewrite stack_top by exact Hs.
  destruct (ctx_keys c) as [keys|].
  - destruct (slice_index keys (ctx_index c)) as [k|]; [|reflexivity].
    simpl. destruct (reflect.Value_MapIndex (ctx_value c) k); reflexivity.
  - destruct (slice_index (ctx_fields c) (ctx_index c)) as [f|];
      [|reflexivity].
    simpl.
    destruct (reflect.Value_FieldByIndex (ctx_value c) (Index f));
      reflexivity.
Qed.

Lemma ParseMapNext_eq (q : ValueParser) (cs : list valueParserContext)
    (c : valueParserContext) (rest : list reflect.Value)
    (top : reflect.Value) :
  ctx q = cs ++ [c] ->
  stack q = rest ++ [top] ->
  ParseMapNext q =
  match child_key (ctx_keys c) (ctx_fields c) (int_wrap (ctx_index c + 1))
  with
  | Ok x => Ok (nil_error,
                {| stack := rest ++ [x]; ctx := cs ++ [incr_index c] |})
  | Panic => Panic
  end.
Proof.
  intros Hc Hs.
  unfold ParseMapNext, bind, context_index_incr, child_key.
  rewrite Hc, slice_last_app, removelast_last.
  erewrite stack_top by (simpl; exact Hs).
  change (ctx_keys (incr_index c)) with (ctx_keys c).
  change (ctx_fields (incr_index c)) with (ctx_fields c).
  change (ctx_index (incr_index c)) with (int_wrap (ctx_index c + 1)).
  destruct (ctx_keys c) as [keys|].
  - unfold lift.
    destruct (slice_index keys (int_wrap (ctx_index c + 1))); reflexivity.
  - unfold lift.
    destruct (slice_index (ctx_fields c) (int_wrap (ctx_index c + 1)));
      reflexivity.
Qed.

Section Rounds.

Variable p : ValueParser.
Variable n : Z.
Variable v : reflect.Value.
Variable keys : option (list reflect.Value).
Variable fields : list StructField.
(** The keys shown by the iteration, in order. *)
Variable shown : list reflect.Value.

Hypothesis Hkey :
  forall i, child_key keys fields (Z.of_nat i) = slice_index shown (Z.of_nat i).
Hypothesis Hval :
  forall i, (i < List.length shown)%nat ->
            exists e, child_value v keys fields (Z.of_nat i) = Ok e.
Hypothesis Hlen : Z.of_nat (List.length shown) < 2 ^ 63.

Lemma value_at (i : nat) (key : reflect.Value) :
  (i < List.length shown)%nat ->
  exists e,
    child_value v keys fields (Z.of_nat i) = Ok e /\
    ParseMapValue (inside p (iterating n v keys fields i) key)
    = Ok (nil_error, inside p (iterating n v keys fields i) e).
Proof.
  intros Hi. destruct (Hval Hi) as [e He]. exists e. split; [exact He|].
  erewrite ParseMapValue_eq; [|reflexivity|reflexivity].
  simpl. rewrite He. reflexivity.
Qed.

Lemma next_at (i : nat) (top key : reflect.Value) :
  nth_error shown (S i) = Some key ->
  ParseMapNext (inside p (iterating n v keys fields i) top)
  = Ok (nil_error, inside p (iterating n v keys fields (S i)) key).
Proof.
  intros Hk.
  assert (Hi : (S i < List.length shown)%nat)
    by (apply nth_error_Some; rewrite Hk; discriminate).
  erewrite ParseMapNext_eq; [|reflexivity|reflexivity].
  simpl. rewrite int_wrap_small by lia.
  replace (Z.of_nat i + 1) with (Z.of_nat (S i)) by lia.
  rewrite Hkey, (slice_index_nth _ _ Hk).
  rewrite incr_iterating by lia. reflexivity.
Qed.

Lemma next_past_the_end (i : nat) (top : reflect.Value) :
  (List.length shown <= S i)%nat ->
  Z.of_nat (S i) < 2 ^ 63 ->
  ParseMapNext (inside p (iterating n v keys fields i) top) = Panic.
Proof.
  intros Hi Hb.
  erewrite ParseMapNext_eq; [|reflexivity|reflexivity].
  simpl. rewrite int_wrap_small by lia.
  replace (Z.of_nat i + 1) with (Z.of_nat (S i)) by lia.
  rewrite Hkey, slice_index_beyond by lia. reflexivity.
Qed.

Lemma rounds_reach (k : nat) (key0 key : reflect.Value) :
  nth_error shown 0 = Some key0 ->
  nth_error shown k = Some key ->
  repeat_call k entry_round (inside p (iterating n v keys fields 0) key0)
  = Ok (tt, inside p (iterating n v keys fields k) key).
Proof.
  intros H0. revert key. induction k as [|k IH]; intros key Hk.
  - rewrite H0 in Hk. inversion Hk. reflexivity.
  - assert (Hi : (S k < List.length shown)%nat)
      by (apply nth_error_Some; rewrite Hk; discriminate).
    destruct (nth_error shown k) as [y|] eqn:Hy;
      [|apply nth_error_None in Hy; lia].
    erewrite repeat_call_step by (apply IH; reflexivity).
    unfold entry_round, bind.
    destruct (@value_at k y ltac:(lia)) as (e & _ & He). rewrite He.
    rewrite (next_at _ _ Hk). reflexivity.
Qed.

End Rounds.

Lemma map_lookup_first (m : list (reflect.Value * reflect.Value)) :
  forall k e,
    nth_error m k = Some e ->
    first_of_its_key m k (fst e) ->
    reflect.map_lookup m (fst e) = snd e.
Proof.
  induction m as [|[k0 v0] m IH]; intros k e Hk [Hrefl Hfirst].
  - destruct k; discriminate.
  - destruct k as [|k]; simpl in Hk.
    + inversion Hk; subst e. simpl. simpl in Hrefl. rewrite Hrefl.
      reflexivity.
    + assert (H0 := Hfirst 0%nat (k0, v0) ltac:(lia) eq_refl).
      simpl in H0. simpl. rewrite H0.
      apply (IH k e Hk). split; [exact Hrefl|].
      intros j e' Hj He'. apply (Hfirst (S j) e'); [lia|exact He'].
Qed.

Section MapReplay.

Variable LookupStruct : reflect.rtype -> Struct.
Variable omit : StructField -> reflect.Value -> bool.
Variable p : ValueParser.
Variable v : reflect.Value.
Variable m : list (reflect.Value * reflect.Value).
Hypothesis Hv : value p = Ok (v, p).
Hypothesis Hm : Value_entries v = Some m.
Hypothesis Hlen : Z.of_nat (List.length m) < 2 ^ 63.

Lemma Value_entries_spec :
  reflect.Value_Kind v = reflect.Map /\
  reflect.Value_Len v = Ok (Z.of_nat (List.length m)) /\
  reflect.Value_MapKeys v = Ok (List.map fst m) /\
  forall k, reflect.Value_MapIndex v k = Ok (reflect.map_lookup m k).
Proof.
  destruct v; simpl in Hm; inversion Hm; subst. repeat split.
Qed.

Lemma ParseMapBegin_map :
  ParseMapBegin LookupStruct omit p =
  Ok ((Z.of_nat (List.length m), nil_error),
      {| stack := stack p ++ first_key m;
         ctx := ctx p ++ [new_context (Z.of_nat (List.length m)) v
                            (Some (List.map fst m)) []] |}).
Proof.
  destruct Value_entries_spec as (Hk & HL & HK & _).
  unfold ParseMapBegin, bind. rewrite Hv, Hk.
  change (reflect.Kind_beq reflect.Map reflect.Map) with true.
  cbv iota. unfold lift. rewrite HL, HK. unfold pushContext.
  destruct m as [|e m'].
  - simpl. rewrite app_nil_r. reflexivity.
  - replace (Z.of_nat (List.length (e :: m')) =? 0) with false
      by (symmetry; apply Z.eqb_neq; simpl List.length; lia).
    simpl List.map. rewrite slice_index_0. reflexivity.
Qed.

Lemma map_begin_then (B : Type) (k : M B) (e : reflect.Value * reflect.Value) :
  nth_error m 0 = Some e ->
  (ParseMapBegin LookupStruct omit ;; k) p =
  k (inside p (iterating (Z.of_nat (List.length m)) v
                 (Some (List.map fst m)) [] 0) (fst e)).
Proof.
  intros He. unfold bind at 1. rewrite ParseMapBegin_map.
  destruct m as [|e0 m']; [discriminate|].
  simpl in He. inversion He; subst e0. reflexivity.
Qed.

Lemma map_begin_empty (B : Type) (k : M B) :
  m = [] ->
  (ParseMapBegin LookupStruct omit ;; k) p =
  k {| stack := stack p;
       ctx := ctx p ++ [iterating 0 v (Some []) [] 0] |}.
Proof.
  intros Em. unfold bind at 1. rewrite ParseMapBegin_map. rewrite Em.
  simpl. rewrite app_nil_r. reflexivity.
Qed.

Lemma map_shows_keys (i : nat) :
  child_key (Some (List.map fst m)) [] (Z.of_nat i)
  = slice_index (List.map fst m) (Z.of_nat i).
Proof. reflexivity. Qed.

Lemma map_has_values (i : nat) :
  (i < List.length (List.map fst m))%nat ->
  exists e, child_value v (Some (List.map fst m)) [] (Z.of_nat i) = Ok e.
Proof.
  intros Hi. destruct Value_entries_spec as (_ & _ & _ & HI).
  destruct (nth_error (List.map fst m) i) as [k|] eqn:Hk;
    [|apply nth_error_None in Hk; lia].
  exists (reflect.map_lookup m k). unfold child_value.
  rewrite (slice_index_nth _ _ Hk). simpl. apply HI.
Qed.

Lemma map_keys_length : Z.of_nat (List.length (List.map fst m)) < 2 ^ 63.
Proof. rewrite length_map. exact Hlen. Qed.

Lemma map_after_rounds (k : nat) (e : reflect.Value * reflect.Value) :
  nth_error m k = Some e ->
  (ParseMapBegin LookupStruct omit ;; repeat_call k entry_round) p
  = Ok (tt, inside p (iterating (Z.of_nat (List.length m)) v
                        (Some (List.map fst m)) [] k) (fst e)).
Proof.
  intros He.
  assert (Hk : (k < List.length m)%nat)
    by (apply nth_error_Some; rewrite He; discriminate).
  destruct (nth_error m 0) as [e0|] eqn:H0;
    [|apply nth_error_None in H0; lia].
  rewrite (map_begin_then (repeat_call k entry_round) H0).
  apply rounds_reach with (shown := List.map fst m).
  - exact map_shows_keys.
  - exact map_has_values.
  - exact map_keys_length.
  - rewrite nth_error_map, H0. reflexivity.
  - rewrite nth_error_map, He. reflexivity.
Qed.

Lemma map_value_at (k : nat) (e : reflect.Value * reflect.Value) :
  nth_error m k = Some e ->
  ParseMapValue (inside p (iterating (Z.of_nat (List.length m)) v
                             (Some (List.map fst m)) [] k) (fst e))
  = Ok (nil_error,
        inside p (iterating (Z.of_nat (List.length m)) v
                    (Some (List.map fst m)) [] k)
          (reflect.map_lookup m (fst e))).
Proof.
  intros He. destruct Value_entries_spec as (_ & _ & _ & HI).
  erewrite ParseMapValue_eq; [|reflexivity|reflexivity].
  simpl. unfold child_value.
  rewrite (@slice_index_nth _ (List.map fst m) k (fst e))
    by (rewrite nth_error_map, He; reflexivity).
  simpl. rewrite HI. reflexivity.
Qed.

End MapReplay.

Lemma tinfo_eqb_refl (t : reflect.tinfo) : reflect.tinfo_eqb t t = true.
Proof.
  unfold reflect.tinfo_eqb. rewrite String.eqb_refl, Bool.eqb_reflx.
  reflexivity.
Qed.

Lemma Kind_beq_refl (k : reflect.Kind) : reflect.Kind_beq k k = true.
Proof. apply reflect.internal_Kind_dec_lb. reflexivity. Qed.

(** Of the keys compared by value, only a float that is a NaN is not
    equal to itself. *)
Lemma not_self_equal_is_nan (key : reflect.Value) :
  compared_by_value key = true ->
  reflect.Value_eqb key key = false ->
  exists k t bits,
    key = reflect.VFloat k t bits /\ reflect.float_is_nan bits = true.
Proof.
  intros Hc Hn.
  destruct key as [| t b | k t i | k t u | k t x | t s | | | | | | |];
    try discriminate Hc; simpl in Hn.
  - rewrite tinfo_eqb_refl, Bool.eqb_reflx in Hn. discriminate Hn.
  - unfold reflect.IntKind_eqb in Hn.
    rewrite Kind_beq_refl, tinfo_eqb_refl, Z.eqb_refl in Hn.
    discriminate Hn.
  - unfold reflect.UintKind_eqb in Hn.
    rewrite Kind_beq_refl, tinfo_eqb_refl, Z.eqb_refl in Hn.
    discriminate Hn.
  - exists k, t, x. split; [reflexivity|].
    unfold reflect.FloatKind_eqb in Hn.
    rewrite Kind_beq_refl, tinfo_eqb_refl in Hn.
    unfold reflect.float_eqb in Hn.
    destruct (reflect.float_is_nan x); [reflexivity|].
    rewrite Z.eqb_refl in Hn. discriminate Hn.
  - rewrite tinfo_eqb_refl, String.eqb_refl in Hn. discriminate Hn.
Qed.

Lemma float_eqb_nan (x y : Z) :
  reflect.float_is_nan y = true -> reflect.float_eqb x y = false.
Proof.
  intros Hn. unfold reflect.float_eqb. rewrite Hn.
  destruct (negb (reflect.float_is_nan x)); reflexivity.
Qed.

Lemma Value_eqb_nan (a : reflect.Value)
    (k : reflect.FloatKind) (t : reflect.tinfo) (bits : Z) :
  reflect.float_is_nan bits = true ->
  reflect.Value_eqb a (reflect.VFloat k t bits) = false.
Proof.
  intros Hn.
  destruct a as [| | | | k' t' x | | | | | | | |];
    try (cbn [reflect.Value_eqb]; reflexivity).
  cbn [reflect.Value_eqb]. rewrite (@float_eqb_nan x bits Hn).
  apply andb_false_r.
Qed.

Lemma map_lookup_nan (m : list (reflect.Value * reflect.Value))
    (k : reflect.FloatKind) (t : reflect.tinfo) (bits : Z) :
  reflect.float_is_nan bits = true ->
  reflect.map_lookup m (reflect.VFloat k t bits) = reflect.VInvalid.
Proof.
  intros Hn. induction m as [|[k0 v0] m IH]; [reflexivity|].
  cbn [reflect.map_lookup]. rewrite (@Value_eqb_nan k0 k t bits Hn). exact IH.
Qed.

Lemma key_compared_by_value (m : list (reflect.Value * reflect.Value))
    (k : nat) (e : reflect.Value * reflect.Value) :
  forallb compared_by_value (List.map fst m) = true ->
  nth_error m k = Some e ->
  compared_by_value (fst e) = true.
Proof.
  intros Hall He. rewrite forallb_forall in Hall. apply Hall.
  apply in_map. eapply nth_error_In. exact He.
Qed.

(** X4: on a native map whose keys are booleans, integers, floats or
    strings, [ParseMapBegin] followed by [k] rounds of [ParseMapValue] and
    [ParseMapNext], for [k] below the number of entries, leaves the key of
    entry [k] (in the order of [MapKeys]) on top of the stack;
    [ParseMapValue] then replaces it by what [MapIndex] finds for that
    key: the value of entry [k] when the key equals itself and no earlier
    key, and the zero Value when the key is not equal to itself, which is
    so of a NaN. *)
Theorem map_rounds_reach_entry
    (LookupStruct : reflect.rtype -> Struct)
    (omit : StructField -> reflect.Value -> bool)
    (p : ValueParser) (v : reflect.Value)
    (m : list (reflect.Value * reflect.Value))
    (k : nat) (e : reflect.Value * reflect.Value) :
  value p = Ok (v, p) ->
  Value_entries v = Some m ->
  Z.of_nat (List.length m) < 2 ^ 63 ->
  forallb compared_by_value (List.map fst m) = true ->
  nth_error m k = Some e ->
  (ParseMapBegin LookupStruct omit ;; repeat_call k entry_round) p
  = Ok (tt, inside p (iterating (Z.of_nat (List.length m)) v
                        (Some (List.map fst m)) [] k) (fst e)) /\
  ParseMapValue (inside p (iterating (Z.of_nat (List.length m)) v
                             (Some (List.map fst m)) [] k) (fst e))
  = Ok (nil_error,
        inside p (iterating (Z.of_nat (List.length m)) v
                    (Some (List.map fst m)) [] k)
          (reflect.map_lookup m (fst e))) /\
  (first_of_its_key m k (fst e) -> reflect.map_lookup m (fst e) = snd e) /\
  (reflect.Value_eqb (fst e) (fst e) = false ->
   reflect.map_lookup m (fst e) = reflect.VInvalid).
Proof.
  intros Hv Hm Hlen Hkeys He. split; [|split; [|split]].
  - apply map_after_rounds; assumption.
  - apply map_value_at; assumption.
  - apply map_lookup_first. exact He.
  - intros Hn.
    destruct (not_self_equal_is_nan _ (key_compared_by_value _ _ Hkeys He) Hn)
      as (fk & t & bits & -> & Hnan).
    apply map_lookup_nan. exact Hnan.
Qed.

Lemma map_rounds_reach_entry_witness :
  ((ParseMapBegin demo.LookupStruct demo.omit ;; repeat_call 1 entry_round)
     (NewValueParser (Some demo.map_ab))
   = Ok (tt, inside (NewValueParser (Some demo.map_ab))
               (iterating 2 demo.map_ab
                  (Some [demo.str "a"; demo.str "b"]) [] 1)
               (demo.str "b")) /\
   ParseMapValue (inside (NewValueParser (Some demo.map_ab))
                    (iterating 2 demo.map_ab
                       (Some [demo.str "a"; demo.str "b"]) [] 1)
                    (demo.str "b"))
   = Ok (nil_error,
         inside (NewValueParser (Some demo.map_ab))
           (iterating 2 demo.map_ab
              (Some [demo.str "a"; demo.str "b"]) [] 1)
           (demo.int 2)) /\
   reflect.map_lookup [(demo.str "a", demo.int 1); (demo.str "b", demo.int 2)]
     (demo.str "b") = demo.int 2) /\
  (ParseMapValue (inside (NewValueParser (Some demo.map_nan))
                    (iterating 1 demo.map_nan (Some [demo.nan]) [] 0)
                    demo.nan)
   = Ok (nil_error,
         inside (NewValueParser (Some demo.map_nan))
           (iterating 1 demo.map_nan (Some [demo.nan]) [] 0)
           reflect.VInvalid) /\
   reflect.map_lookup [(demo.nan, demo.int 1)] demo.nan = reflect.VInvalid).
Proof.
  split.
  - destruct (@map_rounds_reach_entry demo.LookupStruct demo.omit
                (NewValueParser (Some demo.map_ab)) demo.map_ab
                [(demo.str "a", demo.int 1); (demo.str "b", demo.int 2)]
                1 (demo.str "b", demo.int 2))
      as (Ha & Hb & Hc & _).
    + reflexivity.
    + reflexivity.
    + simpl. lia.
    + reflexivity.
    + reflexivity.
    + split; [exact Ha|]. split; [exact Hb|].
      apply Hc. split; [reflexivity|].
      intros j e' Hj He'. destruct j as [|j]; [|lia].
      simpl in He'. inversion He'. reflexivity.
  - destruct (@map_rounds_reach_entry demo.LookupStruct demo.omit
                (NewValueParser (Some demo.map_nan)) demo.map_nan
                [(demo.nan, demo.int 1)] 0 (demo.nan, demo.int 1))
      as (_ & Hb & _ & Hd).
    + reflexivity.
    + reflexivity.
    + simpl. lia.
    + reflexivity.
    + reflexivity.
    + split; [exact Hb|]. apply Hd. reflexivity.
Defined.

(** X5: on a native map, [ParseMapEnd] returns the parser exactly as it
    was before [ParseMapBegin], whether it is called on an empty map,
    after a key, or after the value that [ParseMapValue] put in the place
    of the key. *)
Theorem map_end_restores_the_parser
    (LookupStruct : reflect.rtype -> Struct)
    (omit : StructField -> reflect.Value -> bool)
    (p : ValueParser) (v : reflect.Value)
    (m : list (reflect.Value * reflect.Value)) (k : nat) :
  value p = Ok (v, p) ->
  Value_entries v = Some m ->
  Z.of_nat (List.length m) < 2 ^ 63 ->
  (k = 0%nat \/ (k < List.length m)%nat ->
   (ParseMapBegin LookupStruct omit ;; repeat_call k entry_round ;;
    ParseMapEnd) p = Ok (nil_error, p)) /\
  ((k < List.length m)%nat ->
   (ParseMapBegin LookupStruct omit ;; repeat_call k entry_round ;;
    ParseMapValue ;; ParseMapEnd) p = Ok (nil_error, p)).
Proof.
  intros Hv Hm Hlen. rewrite ParseMapEnd_eq. split.
  - intros Hk. destruct m as [|e0 m'] eqn:Em.
    + assert (k = 0%nat) by (destruct Hk; [assumption|simpl in *; lia]).
      subst k.
      rewrite (map_begin_empty LookupStruct omit Hv Hm Hlen
                 (repeat_call 0 entry_round ;; ParseArrayEnd) eq_refl).
      unfold bind at 1. simpl repeat_call. unfold ret at 1.
      erewrite End_keeps; [|reflexivity|reflexivity].
      simpl. rewrite parser_eta. reflexivity.
    + rewrite <- Em in *.
      assert (Hk' : (k < List.length m)%nat)
        by (destruct Hk; [subst k; rewrite Em; simpl; lia|assumption]).
      destruct (nth_error m k) as [e|] eqn:He;
        [|apply nth_error_None in He; lia].
      assert (H0 : nth_error m 0 = Some e0) by (rewrite Em; reflexivity).
      assert (Hs := map_after_rounds LookupStruct omit Hv Hm Hlen _ He).
      rewrite (map_begin_then LookupStruct omit Hv Hm Hlen
                 (repeat_call k entry_round) H0) in Hs.
      rewrite (map_begin_then LookupStruct omit Hv Hm Hlen
                 (repeat_call k entry_round ;; ParseArrayEnd) H0).
      unfold bind at 1. rewrite Hs.
      erewrite End_pops; [|reflexivity|reflexivity|].
      * rewrite parser_eta. reflexivity.
      * simpl. rewrite Em. simpl List.length. lia.
  - intros Hk.
    destruct (nth_error m k) as [e|] eqn:He;
      [|apply nth_error_None in He; lia].
    destruct (nth_error m 0) as [e0|] eqn:H0;
      [|apply nth_error_None in H0; lia].
    assert (Hs := map_after_rounds LookupStruct omit Hv Hm Hlen _ He).
    rewrite (map_begin_then LookupStruct omit Hv Hm Hlen
               (repeat_call k entry_round) H0) in Hs.
    rewrite (map_begin_then LookupStruct omit Hv Hm Hlen
               (repeat_call k entry_round ;; ParseMapValue ;; ParseArrayEnd)
               H0).
    unfold bind at 1. rewrite Hs.
    unfold bind at 1. rewrite (map_value_at Hv Hm _ He).
    erewrite End_pops; [|reflexivity|reflexivity|].
    + rewrite parser_eta. reflexivity.
    + simpl. lia.
Qed.

Lemma map_end_restores_the_parser_witness :
  (ParseMapBegin demo.LookupStruct demo.omit ;; repeat_call 0 entry_round ;;
   ParseMapEnd) (NewValueParser (Some demo.map_a1))
  = Ok (nil_error, NewValueParser (Some demo.map_a1)) /\
  (ParseMapBegin demo.LookupStruct demo.omit ;; repeat_call 0 entry_round ;;
   ParseMapValue ;; ParseMapEnd) (NewValueParser (Some demo.map_a1))
  = Ok (nil_error, NewValueParser (Some demo.map_a1)).
Proof.
  destruct (@map_end_restores_the_parser demo.LookupStruct demo.omit
              (NewValueParser (Some demo.map_a1)) demo.map_a1
              [(demo.str "a", demo.int 1)] 0 eq_refl eq_refl)
    as [H1 H2].
  - simpl. lia.
  - split.
    + apply H1. left. reflexivity.
    + apply H2. simpl. lia.
Defined.

(** X6: on a native map, as many rounds of [ParseMapValue] and
    [ParseMapNext] after [ParseMapBegin] as there are entries (at least
    one) panic: there is no key past the last one, and no call returns a
    signal for the end of the map. *)
Theorem map_next_past_the_end_panics
    (LookupStruct : reflect.rtype -> Struct)
    (omit : StructField -> reflect.Value -> bool)
    (p : ValueParser) (v : reflect.Value)
    (m : list (reflect.Value * reflect.Value)) (k : nat) :
  value p = Ok (v, p) ->
  Value_entries v = Some m ->
  Z.of_nat (List.length m) < 2 ^ 63 ->
  (List.length m <= k)%nat ->
  (0 < k)%nat ->
  (ParseMapBegin LookupStruct omit ;; repeat_call k entry_round) p = Panic.
Proof.
  intros Hv Hm Hlen. induction k as [|k IH]; intros Hk Hpos; [lia|].
  destruct (Nat.le_gt_cases (List.length m) k) as [Hle|Hlt].
  - destruct k as [|k'].
    + assert (Em : m = []) by (destruct m; [reflexivity|simpl in Hle; lia]).
      rewrite (map_begin_empty LookupStruct omit Hv Hm Hlen
                 (repeat_call 1 entry_round) Em).
      erewrite repeat_call_step by reflexivity.
      destruct (value_stack_nonempty Hv) as (rest & top & Hs).
      unfold entry_round, bind.
      erewrite ParseMapValue_eq; [|reflexivity|simpl; exact Hs].
      reflexivity.
    + specialize (IH Hle ltac:(lia)).
      unfold bind at 1. unfold bind at 1 in IH.
      destruct (ParseMapBegin LookupStruct omit p) as [[a p1]|];
        [|reflexivity].
      apply repeat_call_panics. exact IH.
  - destruct (nth_error m k) as [e|] eqn:He;
      [|apply nth_error_None in He; lia].
    destruct (nth_error m 0) as [e0|] eqn:H0;
      [|apply nth_error_None in H0; lia].
    assert (Hs := map_after_rounds LookupStruct omit Hv Hm Hlen _ He).
    rewrite (map_begin_then LookupStruct omit Hv Hm Hlen
               (repeat_call k entry_round) H0) in Hs.
    rewrite (map_begin_then LookupStruct omit Hv Hm Hlen
               (repeat_call (S k) entry_round) H0).
    erewrite repeat_call_step by exact Hs.
    unfold entry_round, bind. rewrite (map_value_at Hv Hm _ He).
    rewrite next_past_the_end with (shown := List.map fst m).
    + reflexivity.
    + intros i. reflexivity.
    + rewrite length_map. lia.
    + lia.
Qed.

Lemma map_next_past_the_end_panics_witness :
  (ParseMapBegin demo.LookupStruct demo.omit ;; repeat_call 1 entry_round)
    (NewValueParser (Some demo.map_a1)) = Panic.
Proof.
  apply (@map_next_past_the_end_panics demo.LookupStruct demo.omit
           (NewValueParser (Some demo.map_a1)) demo.map_a1
           [(demo.str "a", demo.int 1)] 1).
  - reflexivity.
  - reflexivity.
  - simpl. lia.
  - simpl. lia.
  - lia.
Defined.

Lemma slice_index_map (A B : Type) (g : A -> B) (l : list A) (i : Z) :
  slice_index (List.map g l) i
  = res_bind (slice_index l i) (fun x => Ok (g x)).
Proof.
  unfold slice_index. rewrite length_map.
  destruct ((0 <=? i) && (i <? Z.of_nat (List.length l))); [|reflexivity].
  rewrite nth_error_map.
  destruct (nth_error l (Z.to_nat i)); reflexivity.
Qed.

Section StructReplay.

Variable LookupStruct : reflect.rtype -> Struct.
Variable omit : StructField -> reflect.Value -> bool.
Variable p : ValueParser.
Variable v : reflect.Value.
Variable t : reflect.rtype.
Hypothesis Hv : value p = Ok (v, p).
Hypothesis Hkind : reflect.Value_Kind v = reflect.Struct.
Hypothesis Htype : reflect.Value_Type v = Ok t.
Hypothesis Hlen : Z.of_nat (List.length (Fields (LookupStruct t))) < 2 ^ 63.
Hypothesis Hfields :
  forall f, In f (Fields (LookupStruct t)) ->
            exists fv, reflect.Value_FieldByIndex v (Index f) = Ok fv.

Lemma kept_is_short :
  Z.of_nat (List.length (kept_fields omit v (Fields (LookupStruct t))))
  < 2 ^ 63.
Proof.
  assert (H := filter_length_le
                 (fun f => negb (omit f (field_value v f)))
                 (Fields (LookupStruct t))).
  unfold kept_fields. lia.
Qed.

Lemma kept_field_value (f : StructField) :
  In f (kept_fields omit v (Fields (LookupStruct t))) ->
  reflect.Value_FieldByIndex v (Index f) = Ok (field_value v f).
Proof.
  intros Hf. unfold kept_fields in Hf. apply filter_In in Hf.
  destruct Hf as [Hf _]. destruct (Hfields f Hf) as [fv Hfv].
  unfold field_value. rewrite Hfv. reflexivity.
Qed.

Lemma struct_shows_names (i : nat) :
  child_key None (kept_fields omit v (Fields (LookupStruct t))) (Z.of_nat i)
  = slice_index
      (List.map (fun f => string_value (Name f))
         (kept_fields omit v (Fields (LookupStruct t)))) (Z.of_nat i).
Proof. unfold child_key. rewrite slice_index_map. reflexivity. Qed.

Lemma struct_has_values (i : nat) :
  (i < List.length
         (List.map (fun f => string_value (Name f))
            (kept_fields omit v (Fields (LookupStruct t)))))%nat ->
  exists e,
    child_value v None (kept_fields omit v (Fields (LookupStruct t)))
      (Z.of_nat i) = Ok e.
Proof.
  rewrite length_map. intros Hi.
  destruct (nth_error (kept_fields omit v (Fields (LookupStruct t))) i)
    as [f|] eqn:Hf; [|apply nth_error_None in Hf; lia].
  exists (field_value v f). unfold child_value.
  rewrite (slice_index_nth _ _ Hf). simpl.
  apply kept_field_value. eapply nth_error_In. exact Hf.
Qed.

Lemma struct_begin_then (B : Type) (k : M B) (f : StructField) :
  nth_error (kept_fields omit v (Fields (LookupStruct t))) 0 = Some f ->
  (ParseMapBegin LookupStruct omit ;; k) p =
  k (inside p (iterating 0 v None
                 (kept_fields omit v (Fields (LookupStruct t))) 0)
       (string_value (Name f))).
Proof.
  intros Hf. unfold bind at 1.
  rewrite (ParseMapBegin_struct LookupStruct omit Hv Hkind Htype Hlen Hfields).
  destruct (kept_fields omit v (Fields (LookupStruct t))) as [|f0 kept];
    [discriminate|].
  simpl in Hf. inversion Hf; subst f0. reflexivity.
Qed.

Lemma struct_begin_empty (B : Type) (k : M B) :
  kept_fields omit v (Fields (LookupStruct t)) = [] ->
  (ParseMapBegin LookupStruct omit ;; k) p =
  k {| stack := stack p; ctx := ctx p ++ [iterating 0 v None [] 0] |}.
Proof.
  intros Hk. unfold bind at 1.
  rewrite (ParseMapBegin_struct LookupStruct omit Hv Hkind Htype Hlen Hfields).
  rewrite Hk. simpl. rewrite app_nil_r. reflexivity.
Qed.

Lemma struct_after_rounds (k : nat) (f : StructField) :
  nth_error (kept_fields omit v (Fields (LookupStruct t))) k = Some f ->
  (ParseMapBegin LookupStruct omit ;; repeat_call k entry_round) p
  = Ok (tt, inside p (iterating 0 v None
                        (kept_fields omit v (Fields (LookupStruct t))) k)
              (string_value (Name f))).
Proof.
  intros Hf.
  assert (Hk : (k < List.length
                      (kept_fields omit v (Fields (LookupStruct t))))%nat)
    by (apply nth_error_Some; rewrite Hf; discriminate).
  destruct (nth_error (kept_fields omit v (Fields (LookupStruct t))) 0)
    as [f0|] eqn:H0; [|apply nth_error_None in H0; lia].
  rewrite (struct_begin_then (repeat_call k entry_round) H0).
  apply rounds_reach
    with (shown := List.map (fun f => string_value (Name f))
                     (kept_fields omit v (Fields (LookupStruct t)))).
  - exact struct_shows_names.
  - exact struct_has_values.
  - rewrite length_map. exact kept_is_short.
  - rewrite nth_error_map, H0. reflexivity.
  - rewrite nth_error_map, Hf. reflexivity.
Qed.

Lemma struct_value_at (k : nat) (f : StructField) :
  nth_error (kept_fields omit v (Fields (LookupStruct t))) k = Some f ->
  ParseMapValue
    (inside p (iterating 0 v None
                 (kept_fields omit v (Fields (LookupStruct t))) k)
       (string_value (Name f)))
  = Ok (nil_error,
        inside p (iterating 0 v None
                    (kept_fields omit v (Fields (LookupStruct t))) k)
          (field_value v f)).
Proof.
  intros Hf.
  erewrite ParseMapValue_eq; [|reflexivity|reflexivity].
  simpl. unfold child_value. rewrite (slice_index_nth _ _ Hf). simpl.
  rewrite kept_field_value by (eapply nth_error_In; exact Hf).
  reflexivity.
Qed.

End StructReplay.

(** X7: on a struct, [ParseMapBegin] followed by [k] rounds of
    [ParseMapValue] and [ParseMapNext] leaves on top of the stack the name
    of the field number [k] among the fields that [omit] keeps, in the
    order of [LookupStruct]; [ParseMapValue] then replaces the name by the
    value [FieldByIndex] gives for that field. *)
Theorem struct_rounds_reach_field
    (LookupStruct : reflect.rtype -> Struct)
    (omit : StructField -> reflect.Value -> bool)
    (p : ValueParser) (v : reflect.Value) (t : reflect.rtype)
    (k : nat) (f : StructField) :
  value p = Ok (v, p) ->
  reflect.Value_Kind v = reflect.Struct ->
  reflect.Value_Type v = Ok t ->
  Z.of_nat (List.length (Fields (LookupStruct t))) < 2 ^ 63 ->
  (forall g, In g (Fields (LookupStruct t)) ->
             exists fv, reflect.Value_FieldByIndex v (Index g) = Ok fv) ->
  nth_error (kept_fields omit v (Fields (LookupStruct t))) k = Some f ->
  (ParseMapBegin LookupStruct omit ;; repeat_call k entry_round) p
  = Ok (tt, inside p (iterating 0 v None
                        (kept_fields omit v (Fields (LookupStruct t))) k)
              (string_value (Name f))) /\
  ParseMapValue
    (inside p (iterating 0 v None
                 (kept_fields omit v (Fields (LookupStruct t))) k)
       (string_value (Name f)))
  = Ok (nil_error,
        inside p (iterating 0 v None
                    (kept_fields omit v (Fields (LookupStruct t))) k)
          (field_value v f)).
Proof.
  intros Hv Hkind Htype Hlen Hfields Hf. split.
  - apply (struct_after_rounds LookupStruct omit Hv Hkind Htype Hlen Hfields
             k Hf).
  - apply (struct_value_at LookupStruct omit p v t Hfields k Hf).
Qed.

Lemma demo_record_fields (g : StructField) :
  In g (Fields (demo.LookupStruct demo.record_type)) ->
  exists fv, reflect.Value_FieldByIndex demo.record (Index g) = Ok fv.
Proof.
  intros Hg. simpl in Hg. destruct Hg as [<-|[<-|[]]].
  - exists (demo.int 0). reflexivity.
  - exists (demo.str "x"). reflexivity.
Defined.

Lemma struct_rounds_reach_field_witness :
  (ParseMapBegin demo.LookupStruct demo.omit ;; repeat_call 0 entry_round)
    (NewValueParser (Some demo.record))
  = Ok (tt, inside (NewValueParser (Some demo.record))
              (iterating 0 demo.record None
                 (kept_fields demo.omit demo.record
                    (Fields (demo.LookupStruct demo.record_type))) 0)
              (string_value "B")) /\
  ParseMapValue
    (inside (NewValueParser (Some demo.record))
       (iterating 0 demo.record None
          (kept_fields demo.omit demo.record
             (Fields (demo.LookupStruct demo.record_type))) 0)
       (string_value "B"))
  = Ok (nil_error,
        inside (NewValueParser (Some demo.record))
          (iterating 0 demo.record None
             (kept_fields demo.omit demo.record
                (Fields (demo.LookupStruct demo.record_type))) 0)
          (field_value demo.record {| Index := [1]; Name := "B" |})).
Proof.
  apply (@struct_rounds_reach_field demo.LookupStruct demo.omit
           (NewValueParser (Some demo.record)) demo.record demo.record_type
           0 {| Index := [1]; Name := "B" |}).
  - reflexivity.
  - reflexivity.
  - reflexivity.
  - vm_compute. reflexivity.
  - exact demo_record_fields.
  - reflexivity.
Defined.

(** X8: on a struct of which [omit] keeps no field, [ParseMapBegin] and
    [ParseMapEnd] return the parser as it was.  On a struct with a kept
    field, [ParseMapEnd] restores the context stack and leaves on the
    value stack, above what was there before [ParseMapBegin], the entry
    that was on top: the name of the current field, or its value after
    [ParseMapValue]. *)
Theorem struct_end_keeps_the_top_entry
    (LookupStruct : reflect.rtype -> Struct)
    (omit : StructField -> reflect.Value -> bool)
    (p : ValueParser) (v : reflect.Value) (t : reflect.rtype)
    (k : nat) :
  value p = Ok (v, p) ->
  reflect.Value_Kind v = reflect.Struct ->
  reflect.Value_Type v = Ok t ->
  Z.of_nat (List.length (Fields (LookupStruct t))) < 2 ^ 63 ->
  (forall g, In g (Fields (LookupStruct t)) ->
             exists fv, reflect.Value_FieldByIndex v (Index g) = Ok fv) ->
  (kept_fields omit v (Fields (LookupStruct t)) = [] ->
   (ParseMapBegin LookupStruct omit ;; ParseMapEnd) p = Ok (nil_error, p)) /\
  (forall f,
      nth_error (kept_fields omit v (Fields (LookupStruct t))) k = Some f ->
      (ParseMapBegin LookupStruct omit ;; repeat_call k entry_round ;;
       ParseMapEnd) p
      = Ok (nil_error,
            {| stack := stack p ++ [string_value (Name f)];
               ctx := ctx p |}) /\
      (ParseMapBegin LookupStruct omit ;; repeat_call k entry_round ;;
       ParseMapValue ;; ParseMapEnd) p
      = Ok (nil_error,
            {| stack := stack p ++ [field_value v f]; ctx := ctx p |})).
Proof.
  intros Hv Hkind Htype Hlen Hfields. rewrite ParseMapEnd_eq. split.
  - intros Hk.
    rewrite (struct_begin_empty LookupStruct omit Hv Hkind Htype Hlen Hfields
               ParseArrayEnd Hk).
    erewrite End_keeps; [|reflexivity|reflexivity]. simpl.
    rewrite parser_eta. reflexivity.
  - intros f Hf.
    assert (Hk : (k < List.length
                        (kept_fields omit v (Fields (LookupStruct t))))%nat)
      by (apply nth_error_Some; rewrite Hf; discriminate).
    destruct (nth_error (kept_fields omit v (Fields (LookupStruct t))) 0)
      as [f0|] eqn:H0; [|apply nth_error_None in H0; lia].
    assert (Hs := struct_after_rounds LookupStruct omit Hv Hkind Htype Hlen
                    Hfields k Hf).
    rewrite (struct_begin_then LookupStruct omit Hv Hkind Htype Hlen Hfields
               (repeat_call k entry_round) H0) in Hs.
    split.
    + rewrite (struct_begin_then LookupStruct omit Hv Hkind Htype Hlen
                 Hfields (repeat_call k entry_round ;; ParseArrayEnd) H0).
      unfold bind at 1. rewrite Hs.
      erewrite End_keeps; [|reflexivity|reflexivity]. reflexivity.
    + rewrite (struct_begin_then LookupStruct omit Hv Hkind Htype Hlen
                 Hfields
                 (repeat_call k entry_round ;; ParseMapValue ;; ParseArrayEnd)
                 H0).
      unfold bind at 1. rewrite Hs.
      unfold bind at 1.
      rewrite (struct_value_at LookupStruct omit p v t Hfields k Hf).
      erewrite End_keeps; [|reflexivity|reflexivity]. reflexivity.
Qed.

Lemma struct_end_keeps_the_top_entry_witness :
  (ParseMapBegin demo.LookupStruct demo.omit ;; repeat_call 0 entry_round ;;
   ParseMapEnd) (NewValueParser (Some demo.record))
  = Ok (nil_error,
        {| stack := stack (NewValueParser (Some demo.record))
                    ++ [string_value "B"];
           ctx := ctx (NewValueParser (Some demo.record)) |}) /\
  (ParseMapBegin demo.LookupStruct demo.omit ;; repeat_call 0 entry_round ;;
   ParseMapValue ;; ParseMapEnd) (NewValueParser (Some demo.record))
  = Ok (nil_error,
        {| stack := stack (NewValueParser (Some demo.record))
                    ++ [field_value demo.record
                          {| Index := [1]; Name := "B" |}];
           ctx := ctx (NewValueParser (Some demo.record)) |}).
Proof.
  destruct (@struct_end_keeps_the_top_entry demo.LookupStruct demo.omit
              (NewValueParser (Some demo.record)) demo.record
              demo.record_type 0 eq_refl eq_refl eq_refl)
    as [_ H].
  - vm_compute. reflexivity.
  - exact demo_record_fields.
  - apply (H {| Index := [1]; Name := "B" |}). reflexivity.
Defined.

(** ** What a traversal leaves on the value stack *)

Lemma above_here (s : list reflect.Value) : above s 0 s.
Proof. exists []. split; [symmetry; apply app_nil_r|reflexivity]. Qed.

Lemma above_push (base s : list reflect.Value) (n : nat) (x : reflect.Value) :
  above base n s -> above base (S n) (s ++ [x]).
Proof.
  intros (ext & -> & <-). exists (ext ++ [x]). split.
  - symmetry. apply app_assoc.
  - rewrite length_app. simpl. lia.
Qed.

Lemma above_pop (base s : list reflect.Value) (n : nat) :
  above base (S n) s -> above base n (removelast s).
Proof.
  intros (ext & -> & Hl).
  destruct (@exists_last _ ext) as (ext' & x & ->);
    [intros ->; discriminate Hl|].
  exists ext'. split.
  - rewrite app_assoc. apply removelast_last.
  - rewrite length_app in Hl. simpl in Hl. lia.
Qed.

Lemma above_more (base s s' : list reflect.Value) (n k : nat) :
  above base n s -> above s k s' -> above base (n + k) s'.
Proof.
  intros (ext & -> & <-) (ext' & -> & <-). exists (ext ++ ext'). split.
  - symmetry. apply app_assoc.
  - apply length_app.
Qed.

Lemma above_nonempty (base s : list reflect.Value) (n : nat) :
  above base (S n) s -> s <> [].
Proof.
  intros (ext & -> & Hl) H. apply app_eq_nil in H. destruct H as [_ ->].
  discriminate Hl.
Qed.

Lemma context_kept_refl (p : ValueParser) : context_kept p p.
Proof.
  split; [reflexivity|]. intros c Hc. exists c. split; [exact Hc|reflexivity].
Qed.

Lemma context_kept_same (p p' : ValueParser) :
  ctx p' = ctx p -> context_kept p p'.
Proof.
  intros H. unfold context_kept. rewrite H. apply context_kept_refl.
Qed.

Lemma context_kept_trans (p q r : ValueParser) :
  context_kept p q -> context_kept q r -> context_kept p r.
Proof.
  intros (H1 & H2) (K1 & K2). split; [congruence|].
  intros c Hc. destruct (H2 c Hc) as (c' & Hc' & Hl).
  destruct (K2 c' Hc') as (c'' & Hc'' & Hl').
  exists c''. split; [exact Hc''|congruence].
Qed.

Lemma retopped_above (p p' : ValueParser) (base : list reflect.Value)
    (n : nat) :
  retopped p p' -> above base (S n) (stack p) -> above base (S n) (stack p').
Proof.
  intros (_ & (x & Hx) & _) Ha. rewrite Hx.
  apply above_push. apply above_pop. exact Ha.
Qed.

Lemma retopped_context (p p' : ValueParser) :
  retopped p p' -> context_kept p p'.
Proof. intros (_ & _ & H1 & H2). split; assumption. Qed.

Lemma retopped_top (p p' : ValueParser) (x : reflect.Value) :
  stack p <> [] ->
  stack p' = removelast (stack p) ++ [x] ->
  ctx p' = ctx p ->
  retopped p p'.
Proof.
  intros Hn Hs Hc. split; [exact Hn|]. split; [exists x; exact Hs|].
  apply context_kept_same. exact Hc.
Qed.

Lemma retopped_next (p p' : ValueParser) (x : reflect.Value)
    (c : valueParserContext) :
  stack p <> [] ->
  stack p' = removelast (stack p) ++ [x] ->
  slice_last (ctx p) = Ok c ->
  ctx p' = removelast (ctx p) ++ [incr_index c] ->
  retopped p p'.
Proof.
  intros Hn Hs Hl Hc. split; [exact Hn|]. split; [exists x; exact Hs|].
  rewrite Hc, removelast_last. split; [reflexivity|].
  intros c0 H. rewrite Hl in H. inversion H; subst c0.
  exists (incr_index c). split; [apply slice_last_app|reflexivity].
Qed.

Lemma Next_retops (e : error) (p p' : ValueParser) :
  ParseArrayNext p = Ok (e, p') \/ ParseMapNext p = Ok (e, p') \/
  ParseMapValue p = Ok (e, p') ->
  retopped p p'.
Proof.
  intros [H|[H|H]].
  - unfold ParseArrayNext in H. minv. subst.
    eapply retopped_next; [congruence| |eassumption|congruence].
    etransitivity; [eassumption|]. f_equal. congruence.
  - unfold ParseMapNext in H. minv; subst.
    all: eapply retopped_next; [congruence| |eassumption|congruence].
    all: etransitivity; [eassumption|]; f_equal; congruence.
  - unfold ParseMapValue in H. minv; subst.
    all: eapply retopped_top; [congruence| |congruence].
    all: etransitivity; [eassumption|]; f_equal; congruence.
Qed.

Lemma struct_entries_app (a b : list Call) :
  struct_entries (a ++ b) = (struct_entries a + struct_entries b)%nat.
Proof. unfold struct_entries. rewrite filter_app, length_app. reflexivity. Qed.

(** What an [End] leaves on the stack that the matching [Begin] found:
    [n] is the length the [Begin] returned, [c] the context it pushed,
    [k] the number of children traversed and [extra] the entries they
    left. *)
Lemma End_after (p p1 p2 p3 : ValueParser) (n : Z)
    (c : valueParserContext) (e : error) (k extra : nat) :
  opened p p1 n c ->
  ctx_length c = n \/ ctx_length c = 0 ->
  (k = 0%nat -> p2 = p1 /\ extra = 0%nat) ->
  (k <> 0%nat ->
   n <> 0 /\
   forall base n0, above base (S n0) (stack p1) ->
                   context_kept p1 p2 /\
                   above base (S (n0 + extra)) (stack p2)) ->
  ParseArrayEnd p2 = Ok (e, p3) ->
  ctx p3 = ctx p /\
  above (stack p)
    (if (ctx_length c =? 0) && negb (n =? 0) then S extra else extra)
    (stack p3).
Proof.
  intros [Hc Hs] Hlen H0 Hk He.
  apply ParseEnd_inv in He. destruct He as (c2 & Hc2 & Hctx & Hst & _).
  assert (Hlast : slice_last (ctx p1) = Ok c)
    by (rewrite Hc; apply slice_last_app).
  assert (Hkept : context_kept p1 p2).
  { destruct (Nat.eq_dec k 0) as [E|E].
    - destruct (H0 E) as [-> _]. apply context_kept_refl.
    - destruct (Hk E) as [Hn Ha].
      destruct Hs as [[Hn0 _]|[_ [x Hs]]]; [contradiction|].
      apply (Ha (stack p) 0%nat). rewrite Hs.
      apply above_push. apply above_here. }
  destruct Hkept as [Kc Kl].
  destruct (Kl c Hlast) as (c' & Hc' & Hl').
  rewrite Hc2 in Hc'. inversion Hc'; subst c'.
  split.
  - rewrite Hctx, Kc, Hc. apply removelast_last.
  - rewrite Hst, Hl'.
    destruct Hs as [[Hn Hs]|[Hn [x Hs]]].
    + (* nothing was pushed *)
      assert (E : k = 0%nat)
        by (destruct (Nat.eq_dec k 0) as [E|E];
            [exact E|destruct (Hk E); contradiction]).
      destruct (H0 E) as [-> ->].
      assert (Hz : ctx_length c = 0) by (destruct Hlen; congruence).
      rewrite Hz, Hn. simpl. rewrite Hs. apply above_here.
    + assert (Ha : above (stack p) (S extra) (stack p2)).
      { destruct (Nat.eq_dec k 0) as [E|E].
        - destruct (H0 E) as [-> ->]. rewrite Hs.
          apply above_push. apply above_here.
        - destruct (Hk E) as [_ Ha].
          apply (Ha (stack p) 0%nat). rewrite Hs.
          apply above_push. apply above_here. }
      apply Z.eqb_neq in Hn. rewrite Hn. simpl negb. rewrite andb_true_r.
      destruct (ctx_length c =? 0).
      * exact Ha.
      * apply above_pop. exact Ha.
Qed.

Lemma struct_entries_begin (b : bool) (n : Z) (tr : list Call) :
  struct_entries (CallMapBegin b n :: tr ++ [CallMapEnd])
  = ((if b && negb (n =? 0)%Z then 1 else 0) + struct_entries tr)%nat.
Proof.
  unfold struct_entries. simpl.
  destruct b, (n =? 0); simpl; rewrite filter_app, length_app; simpl; lia.
Qed.

Section Growth.

Variable LookupStruct : reflect.rtype -> Struct.
Variable omit : StructField -> reflect.Value -> bool.

Lemma traversal_growth :
  (forall p tr p',
      traverse LookupStruct omit p tr p' ->
      ctx p' = ctx p /\ above (stack p) (struct_entries tr) (stack p')) /\
  (forall p k tr p',
      elements LookupStruct omit p k tr p' ->
      (k = 0%nat -> p' = p /\ struct_entries tr = 0%nat) /\
      (k <> 0%nat ->
       forall base n0,
         above base (S n0) (stack p) ->
         context_kept p p' /\
         above base (S (n0 + struct_entries tr)) (stack p'))) /\
  (forall p k tr p',
      entries LookupStruct omit p k tr p' ->
      (k = 0%nat -> p' = p /\ struct_entries tr = 0%nat) /\
      (k <> 0%nat ->
       forall base n0,
         above base (S n0) (stack p) ->
         context_kept p p' /\
         above base (S (n0 + struct_entries tr)) (stack p'))).
Proof.
  apply traversal_ind.
  - intros p r p1 tr p2 Ht _ IH.
    apply ParseType_pure in Ht. subst p1. exact IH.
  - intros p t msg p1 Ht. apply ParseType_pure in Ht. subst p1.
    split; [reflexivity|apply above_here].
  - intros p g [r e] p1 Hg. apply getter_nil_error in Hg.
    destruct Hg as [_ ->]. split; [reflexivity|apply above_here].
  - (* array *)
    intros p n p1 tr p2 p3 Hb _ [IH0 IHk] He.
    apply ParseArrayBegin_inv in Hb. destruct Hb as (c & Ho & Hl & _).
    destruct (@End_after p p1 p2 p3 n c nil_error (Z.to_nat n)
                (struct_entries tr) Ho (or_introl Hl) IH0) as [Hc Ha].
    + intros Hk. split; [intros ->; apply Hk; reflexivity|].
      apply IHk. exact Hk.
    + exact He.
    + split; [exact Hc|].
      change (struct_entries (CallArrayBegin :: tr ++ [CallArrayEnd]))
        with (struct_entries (tr ++ [CallArrayEnd])).
      rewrite struct_entries_app. simpl. rewrite Nat.add_0_r.
      rewrite Hl in Ha.
      destruct (n =? 0); simpl in Ha; exact Ha.
  - (* map or struct *)
    intros p v n p1 tr p2 p3 Hv Hb _ [IH0 IHk] He.
    apply (ParseMapBegin_inv _ _ Hv) in Hb.
    destruct Hb as (c & Ho & _ & Hl).
    rewrite ParseMapEnd_eq in He.
    assert (Hlen : ctx_length c = n \/ ctx_length c = 0)
      by (destruct (reflect.Kind_beq (reflect.Value_Kind v) reflect.Map);
          [left|right]; exact Hl).
    destruct (@End_after p p1 p2 p3 n c nil_error (Z.to_nat n)
                (struct_entries tr) Ho Hlen IH0) as [Hc Ha].
    + intros Hk. split; [intros ->; apply Hk; reflexivity|].
      apply IHk. exact Hk.
    + exact He.
    + split; [exact Hc|].
      rewrite struct_entries_begin.
      destruct (reflect.Kind_beq (reflect.Value_Kind v) reflect.Map) eqn:Ek;
        rewrite Hl in Ha; simpl negb; simpl andb.
      * destruct (n =? 0); simpl in Ha; exact Ha.
      * simpl in Ha. destruct (n =? 0); simpl in Ha |- *; exact Ha.
  - intros p. split; [intros _; split; reflexivity|intros H; contradiction].
  - intros p tr p1 _ [Hc Ha]. split; [discriminate|].
    intros _ base n0 Hb. split; [apply context_kept_same; exact Hc|].
    replace (S (n0 + struct_entries tr))
      with (S n0 + struct_entries tr)%nat by lia.
    eapply above_more; eassumption.
  - intros p tr p1 p2 k tr' p3 _ [Hc Ha] Hnext _ [_ IH2].
    split; [discriminate|].
    intros _ base n0 Hb.
    assert (Hr : retopped p1 p2) by (eapply Next_retops; left; exact Hnext).
    assert (H1 : above base (S (n0 + struct_entries tr)) (stack p1)).
    { replace (S (n0 + struct_entries tr))
        with (S n0 + struct_entries tr)%nat by lia.
      eapply above_more; eassumption. }
    assert (H2 := retopped_above Hr H1).
    destruct (IH2 ltac:(discriminate) base _ H2) as [Kc Ka].
    split.
    + eapply context_kept_trans; [apply context_kept_same; exact Hc|].
      eapply context_kept_trans; [apply retopped_context; exact Hr|exact Kc].
    + rewrite struct_entries_app.
      change (struct_entries (CallArrayNext :: tr'))
        with (struct_entries tr').
      replace (n0 + (struct_entries tr + struct_entries tr'))%nat
        with (n0 + struct_entries tr + struct_entries tr')%nat by lia.
      exact Ka.
  - intros p. split; [intros _; split; reflexivity|intros H; contradiction].
  - intros p trk p1 p2 trv p3 _ [Hc1 Ha1] Hval _ [Hc3 Ha3].
    split; [discriminate|].
    intros _ base n0 Hb.
    assert (Hr : retopped p1 p2)
      by (eapply Next_retops; right; right; exact Hval).
    assert (H1 : above base (S (n0 + struct_entries trk)) (stack p1)).
    { replace (S (n0 + struct_entries trk))
        with (S n0 + struct_entries trk)%nat by lia.
      eapply above_more; eassumption. }
    assert (H2 := retopped_above Hr H1).
    split.
    + eapply context_kept_trans; [apply context_kept_same; exact Hc1|].
      eapply context_kept_trans; [apply retopped_context; exact Hr|].
      apply context_kept_same. exact Hc3.
    + rewrite struct_entries_app.
      change (struct_entries (CallMapValue :: trv))
        with (struct_entries trv).
      replace (S (n0 + (struct_entries trk + struct_entries trv)))
        with (S (n0 + struct_entries trk) + struct_entries trv)%nat by lia.
      eapply above_more; eassumption.
  - intros p trk p1 p2 trv p3 p4 k tr' p5 _ [Hc1 Ha1] Hval _ [Hc3 Ha3]
      Hnext _ [_ IH5].
    split; [discriminate|].
    intros _ base n0 Hb.
    assert (Hr : retopped p1 p2)
      by (eapply Next_retops; right; right; exact Hval).
    assert (Hr' : retopped p3 p4)
      by (eapply Next_retops; right; left; exact Hnext).
    assert (H1 : above base (S (n0 + struct_entries trk)) (stack p1)).
    { replace (S (n0 + struct_entries trk))
        with (S n0 + struct_entries trk)%nat by lia.
      eapply above_more; eassumption. }
    assert (H2 := retopped_above Hr H1).
    assert (H3 : above base
                   (S (n0 + struct_entries trk + struct_entries trv))
                   (stack p3)).
    { replace (S (n0 + struct_entries trk + struct_entries trv))
        with (S (n0 + struct_entries trk) + struct_entries trv)%nat by lia.
      eapply above_more; eassumption. }
    assert (H4 := retopped_above Hr' H3).
    destruct (IH5 ltac:(discriminate) base _ H4) as [Kc Ka].
    split.
    + eapply context_kept_trans; [apply context_kept_same; exact Hc1|].
      eapply context_kept_trans; [apply retopped_context; exact Hr|].
      eapply context_kept_trans; [apply context_kept_same; exact Hc3|].
      eapply context_kept_trans; [apply retopped_context; exact Hr'|].
      exact Kc.
    + rewrite struct_entries_app.
      change (struct_entries (CallMapValue :: trv ++ CallMapNext :: tr'))
        with (struct_entries (trv ++ CallMapNext :: tr')).
      rewrite struct_entries_app.
      change (struct_entries (CallMapNext :: tr'))
        with (struct_entries tr').
      replace (n0 + (struct_entries trk
                     + (struct_entries trv + struct_entries tr')))%nat
        with (n0 + struct_entries trk + struct_entries trv
              + struct_entries tr')%nat by lia.
      exact Ka.
Qed.

(** X9: after every traversal that follows the grammar, the context stack
    is what it was, and the value stack is what it was with one entry
    added for every [ParseMapBegin] answered from a struct with a field
    that is not omitted; nothing below those entries is changed. *)
Theorem traversal_leaves_one_entry_per_struct
    (p p' : ValueParser) (tr : list Call) :
  traverse LookupStruct omit p tr p' ->
  ctx p' = ctx p /\
  exists ext, stack p' = stack p ++ ext /\
              List.length ext = struct_entries tr.
Proof.
  intros Ht. destruct traversal_growth as (H & _ & _).
  apply (H _ _ _ Ht).
Qed.

End Growth.

Lemma traversal_leaves_one_entry_per_struct_witness :
  ctx {| stack := [demo.record; demo.str "x"]; ctx := [] |}
  = ctx (NewValueParser (Some demo.record)) /\
  exists ext,
    stack {| stack := [demo.record; demo.str "x"]; ctx := [] |}
    = stack (NewValueParser (Some demo.record)) ++ ext /\
    List.length ext = struct_entries demo.record_trace.
Proof.
  apply (@traversal_leaves_one_entry_per_struct
           demo.LookupStruct demo.omit
           (NewValueParser (Some demo.record))
           {| stack := [demo.record; demo.str "x"]; ctx := [] |}
           demo.record_trace).
  apply decode_sound with (fuel := 2%nat). vm_compute. reflexivity.
Defined.

(** ** What the calls depend on, and when they panic *)

Ltac run_goal :=
  repeat (cbv beta iota;
          match goal with
          | |- context [match ?x with _ => _ end] =>
              lazymatch x with
              | context [match _ with _ => _ end] => fail
              | _ => destruct x eqn:?
              end
          end).

Lemma resolve_elem (w e : reflect.Value) :
  reflect.Value_Kind w = reflect.Interface \/
  reflect.Value_Kind w = reflect.Ptr ->
  reflect.Value_IsNil w = Ok false ->
  reflect.Value_Elem w = Ok e ->
  Value_is_error w = false ->
  Value_is_error e = false ->
  resolve w = resolve e.
Proof.
  intros Hk Hn He Hw Hee.
  assert (Hr : resolve e = dereference e).
  { unfold resolve. unfold Value_is_error in Hee.
    destruct e; simpl in *; try reflexivity; rewrite Hee; reflexivity. }
  rewrite Hr.
  destruct w as [| | k | k | k | | | | | | ? ? [x|] | ? [x|] | k];
    try destruct k; simpl in Hk; try (exfalso; intuition discriminate);
    simpl in Hn; try discriminate Hn;
    simpl in He; inversion He; subst x;
    unfold resolve, Value_is_error in *; simpl in *; rewrite Hw; reflexivity.
Qed.

Lemma ParseType_of_value (p q : ValueParser) :
  result_of (value p) = result_of (value q) ->
  result_of (ParseType p) = result_of (ParseType q).
Proof.
  unfold ParseType, bind. rewrite !value_eq.
  destruct (slice_last (stack p)) as [a|], (slice_last (stack q)) as [b|];
    simpl; intros H; try discriminate H; [|reflexivity].
  inversion H as [E]. rewrite E. clear H E.
  unfold unsupported, bind, lift, ret.
  run_goal; reflexivity.
Qed.

Lemma getter_of_value (g : Getter) (p q : ValueParser) :
  result_of (value p) = result_of (value q) ->
  result_of (call_getter g p) = result_of (call_getter g q).
Proof.
  destruct g; unfold call_getter, bind;
    unfold ParseNil, ParseBool, ParseInt, ParseUint, ParseFloat, ParseString,
      ParseBytes, ParseTime, ParseDuration, ParseError, bind;
    try reflexivity;
    rewrite !value_eq;
    (destruct (slice_last (stack p)) as [a|],
              (slice_last (stack q)) as [b|];
     simpl; intros H; try discriminate H; [|reflexivity]);
    inversion H as [E]; rewrite E; clear H E;
    unfold lift, ret; run_goal; reflexivity.
Qed.

(** X10: a non-nil pointer or interface on top of the stack is invisible
    when neither it nor its element is an [error]: [value], [ParseType]
    and every getter return what they return with the element in its
    place. *)
Theorem one_wrapper_is_transparent
    (rest : list reflect.Value) (c : list valueParserContext)
    (w e : reflect.Value) :
  reflect.Value_Kind w = reflect.Interface \/
  reflect.Value_Kind w = reflect.Ptr ->
  reflect.Value_IsNil w = Ok false ->
  reflect.Value_Elem w = Ok e ->
  Value_is_error w = false ->
  Value_is_error e = false ->
  result_of (value {| stack := rest ++ [w]; ctx := c |})
  = result_of (value {| stack := rest ++ [e]; ctx := c |}) /\
  result_of (ParseType {| stack := rest ++ [w]; ctx := c |})
  = result_of (ParseType {| stack := rest ++ [e]; ctx := c |}) /\
  forall g,
    result_of (call_getter g {| stack := rest ++ [w]; ctx := c |})
    = result_of (call_getter g {| stack := rest ++ [e]; ctx := c |}).
Proof.
  intros Hk Hn He Hw Hee.
  assert (Hv : result_of (value {| stack := rest ++ [w]; ctx := c |})
               = result_of (value {| stack := rest ++ [e]; ctx := c |})).
  { rewrite !value_eq. simpl stack. rewrite !slice_last_app. simpl.
    rewrite (@resolve_elem w e Hk Hn He Hw Hee). reflexivity. }
  split; [exact Hv|]. split.
  - apply ParseType_of_value. exact Hv.
  - intros g. apply getter_of_value. exact Hv.
Qed.

Lemma one_wrapper_is_transparent_witness :
  result_of (value {| stack := [] ++ [demo.int_ptr]; ctx := [] |})
  = result_of (value {| stack := [] ++ [demo.int 7]; ctx := [] |}) /\
  result_of (ParseType {| stack := [] ++ [demo.int_ptr]; ctx := [] |})
  = result_of (ParseType {| stack := [] ++ [demo.int 7]; ctx := [] |}) /\
  forall g,
    result_of (call_getter g {| stack := [] ++ [demo.int_ptr]; ctx := [] |})
    = result_of (call_getter g {| stack := [] ++ [demo.int 7]; ctx := [] |}).
Proof.
  apply (@one_wrapper_is_transparent [] [] demo.int_ptr (demo.int 7)).
  - right. reflexivity.
  - reflexivity.
  - reflexivity.
  - reflexivity.
  - reflexivity.
Defined.

Lemma duration_has_int (d : reflect.Value) :
  is_type (Some d) time.Duration = true ->
  exists z, reflect.Value_Int d = Ok z.
Proof.
  intros H. apply is_type_Kind in H.
  destruct d as [| | k | k | k | | | | | | | | k]; try destruct k;
    simpl in H; try discriminate H; eexists; reflexivity.
Qed.

Lemma selected_getter_returns (p : ValueParser) (t : Type_) (g : Getter) :
  ParseType p = Ok ((t, nil_error), p) ->
  getter_of t = Some g ->
  t <> Bytes ->
  exists r, call_getter g p = Ok ((r, nil_error), p).
Proof.
  intros H Hg Hb.
  unfold ParseType, bind in H. rewrite value_eq in H.
  destruct (slice_last (stack p)) as [top|] eqn:Htop; [|discriminate].
  assert (Hval : value p = Ok (resolve top, p))
    by (rewrite value_eq, Htop; reflexivity).
  set (v := resolve top) in *. clearbody v. clear Htop top.
  unfold unsupported, bind, lift, ret in H.
  destruct v as [| | k | k | k | | | | | | | ? dyn | k]; try destruct k;
    simpl in H; run_in H; ok_inv; try discriminate;
    simpl in Hg; inversion Hg; subst g; try (exfalso; apply Hb; reflexivity);
    unfold call_getter, ParseNil, ParseBool, ParseInt, ParseUint, ParseFloat,
      ParseString, ParseTime, ParseDuration, ParseError, bind;
    try rewrite Hval; unfold lift, ret, assert_type, assert_error;
    simpl;
    repeat match goal with
           | E : is_type _ _ = _ |- _ => rewrite E
           | E : is_error _ = _ |- _ => rewrite E
           end;
    simpl;
    try (eexists; reflexivity).
  all: try (destruct dyn as [d|]; [|discriminate]).
  all: try (match goal with
            | E : is_type (Some ?d) time.Duration = true |- _ =>
                destruct (duration_has_int _ E) as [z Hz]; simpl;
                try rewrite Hz
            end).
  all: try (eexists; reflexivity).
  all: type_facts;
    repeat match goal with
           | E : Some _ = Some _ |- _ => inversion E; clear E; subst
           end;
    simpl in *; try discriminate.
Qed.

Lemma array_begin_returns (p : ValueParser) (v : reflect.Value)
    (l : list reflect.Value) :
  value p = Ok (v, p) ->
  Value_elements v = Some l ->
  exists n p', ParseArrayBegin p = Ok ((n, nil_error), p').
Proof.
  intros Hv Hl. destruct (Value_elements_spec _ Hl) as (_ & HL & HI).
  unfold ParseArrayBegin, bind. rewrite Hv. unfold lift. rewrite HL.
  destruct l as [|x l].
  - simpl. do 2 eexists. reflexivity.
  - replace (Z.of_nat (List.length (x :: l)) =? 0) with false
      by (symmetry; apply Z.eqb_neq; simpl List.length; lia).
    unfold pushContext. simpl bind. cbv beta iota.
    rewrite HI, slice_index_0. do 2 eexists. reflexivity.
Qed.

Lemma map_begin_returns (LookupStruct : reflect.rtype -> Struct)
    (omit : StructField -> reflect.Value -> bool)
    (p : ValueParser) (v : reflect.Value) :
  value p = Ok (v, p) ->
  reflect.Value_Kind v = reflect.Map ->
  exists n p', ParseMapBegin LookupStruct omit p = Ok ((n, nil_error), p').
Proof.
  intros Hv Hk.
  destruct v as [| | k | k | k | | | | ? ? ? m | | | | k]; try destruct k;
    try discriminate Hk.
  unfold ParseMapBegin, bind. rewrite Hv.
  change (reflect.Kind_beq
            (reflect.Value_Kind (reflect.VMap t elem isnil m)) reflect.Map)
    with true.
  cbv iota. unfold lift, pushContext.
  change (reflect.Value_Len (reflect.VMap t elem isnil m))
    with (@Ok Z (Z.of_nat (List.length m))).
  change (reflect.Value_MapKeys (reflect.VMap t elem isnil m))
    with (@Ok _ (List.map fst m)).
  destruct m as [|e m].
  - simpl. do 2 eexists. reflexivity.
  - replace (Z.of_nat (List.length (e :: m)) =? 0) with false
      by (symmetry; apply Z.eqb_neq; simpl List.length; lia).
    simpl List.map. rewrite slice_index_0. do 2 eexists. reflexivity.
Qed.

Lemma classified_Array (p : ValueParser) (v : reflect.Value) :
  value p = Ok (v, p) ->
  ParseType p = Ok ((Array, nil_error), p) ->
  exists l, Value_elements v = Some l.
Proof.
  intros Hv H. unfold ParseType, bind in H. rewrite Hv in H.
  unfold unsupported, bind, lift, ret in H.
  destruct v as [| | k | k | k | | | | | | | | k]; try destruct k;
    simpl in H; run_in H; ok_inv; try discriminate;
    eexists; reflexivity.
Qed.

Lemma classified_Bytes (p : ValueParser) (v : reflect.Value) :
  value p = Ok (v, p) ->
  ParseType p = Ok ((Bytes, nil_error), p) ->
  exists l, Value_elements v = Some l /\
            reflect.Value_Bytes v = reflect.bytes_of l.
Proof.
  intros Hv H. unfold ParseType, bind in H. rewrite Hv in H.
  unfold unsupported, bind, lift, ret in H.
  destruct v as [| | k | k | k | | ? el ? l | | | | | | k]; try destruct k;
    simpl in H; run_in H; ok_inv; try discriminate.
  exists l. split; [reflexivity|].
  destruct el as [? k ? ?]. simpl in *.
  destruct k; try discriminate. reflexivity.
Qed.

(** X11: the call a decoder selects from the answer of [ParseType] does
    not panic: when [ParseType] returns a Type with no error, the getter
    of a scalar Type returns (for Bytes, when the elements of the slice
    are uint8 values), [ParseArrayBegin] returns for Array, and
    [ParseMapBegin] returns for Map when the value is a native map. *)
Theorem the_call_for_the_Type_returns (p : ValueParser) (t : Type_) :
  ParseType p = Ok ((t, nil_error), p) ->
  (forall g, getter_of t = Some g -> t <> Bytes ->
             exists r, call_getter g p = Ok ((r, nil_error), p)) /\
  (forall v l, t = Bytes -> value p = Ok (v, p) ->
               Value_elements v = Some l ->
               Forall (fun x => reflect.Value_Kind x = reflect.Uint8) l ->
               exists r, call_getter GetBytes p = Ok ((r, nil_error), p)) /\
  (t = Array ->
   exists n p', ParseArrayBegin p = Ok ((n, nil_error), p')) /\
  (forall LookupStruct omit v,
      t = Map -> value p = Ok (v, p) ->
      reflect.Value_Kind v = reflect.Map ->
      exists n p',
        ParseMapBegin LookupStruct omit p = Ok ((n, nil_error), p')).
Proof.
  intros H. split; [|split; [|split]].
  - intros g Hg Hb. eapply selected_getter_returns; eassumption.
  - intros v l -> Hv Hl Hall.
    destruct (classified_Bytes Hv H) as (l' & Hl' & Hb).
    rewrite Hl in Hl'. inversion Hl'; subst l'.
    destruct (bytes_of_uint8 Hall) as [bs Hbs].
    exists (SBytes bs). unfold call_getter, ParseBytes, bind.
    rewrite Hv. unfold lift. rewrite Hb, Hbs. reflexivity.
  - intros ->.
    assert (Hv : exists v, value p = Ok (v, p)).
    { assert (H' := H). unfold ParseType, bind in H'.
      rewrite value_eq in H' |- *.
      destruct (slice_last (stack p)) as [top|]; [|discriminate].
      exists (resolve top). reflexivity. }
    destruct Hv as [v Hv].
    destruct (classified_Array Hv H) as [l Hl].
    eapply array_begin_returns; eassumption.
  - intros LookupStruct omit v _ Hv Hk.
    apply map_begin_returns with (v := v); assumption.
Qed.

Lemma the_call_for_the_Type_returns_witness :
  (forall g, getter_of Int = Some g -> Int <> Bytes ->
             exists r, call_getter g (NewValueParser (Some (demo.int 1)))
                       = Ok ((r, nil_error),
                             NewValueParser (Some (demo.int 1)))) /\
  (exists n p', ParseArrayBegin (NewValueParser (Some demo.ints123))
                = Ok ((n, nil_error), p')).
Proof.
  split.
  - apply (@the_call_for_the_Type_returns
             (NewValueParser (Some (demo.int 1))) Int).
    reflexivity.
  - destruct (@the_call_for_the_Type_returns
                (NewValueParser (Some demo.ints123)) Array eq_refl)
      as (_ & _ & H & _).
    apply H. reflexivity.
Defined.

(** X12: [ParseType] never panics on a parser whose value stack is not
    empty: it returns a Type and an error, and the parser unchanged. *)
Theorem ParseType_never_panics (p : ValueParser) :
  stack p <> [] ->
  exists r, ParseType p = Ok (r, p).
Proof.
  intros Hs. destruct (slice_last_nonempty Hs) as [top Htop].
  unfold ParseType, bind. rewrite value_eq, Htop.
  unfold unsupported, bind, lift, ret.
  destruct (resolve top) as [| | k | k | k | | ? el ? ? | | | | | ? [d|] | k];
    try destruct k; try destruct el as [? k ? ?]; simpl;
    run_goal; eexists; reflexivity.
Qed.

Lemma ParseType_never_panics_witness :
  exists r, ParseType (NewValueParser (Some demo.func_value))
            = Ok (r, NewValueParser (Some demo.func_value)).
Proof.
  apply (@ParseType_never_panics (NewValueParser (Some demo.func_value))).
  discriminate.
Defined.

(** X13: calls made out of place panic.  With no open context (no
    [Begin] without its [End]) the [End], [Next] and [ParseMapValue] calls
    panic; with an empty value stack [ParseType], both [Begin] calls,
    every getter but [ParseNil], and the [Next] and [ParseMapValue] calls
    panic. *)
Theorem calls_out_of_place_panic :
  (forall p,
      ctx p = [] ->
      ParseArrayEnd p = Panic /\ ParseMapEnd p = Panic /\
      ParseArrayNext p = Panic /\ ParseMapNext p = Panic /\
      ParseMapValue p = Panic) /\
  (forall p,
      stack p = [] ->
      ParseType p = Panic /\ ParseArrayBegin p = Panic /\
      (forall LookupStruct omit, ParseMapBegin LookupStruct omit p = Panic) /\
      (forall g, g <> GetNil -> call_getter g p = Panic) /\
      ParseArrayNext p = Panic /\ ParseMapNext p = Panic /\
      ParseMapValue p = Panic).
Proof.
  split.
  - intros p Hc.
    unfold ParseMapEnd, ParseArrayEnd, ParseArrayNext, ParseMapNext,
      ParseMapValue, bind, context, context_index_incr, lift.
    rewrite Hc. repeat split; reflexivity.
  - intros p Hs.
    assert (Hv : value p = Panic) by (apply value_panics; exact Hs).
    repeat split.
    + unfold ParseType, bind. rewrite Hv. reflexivity.
    + unfold ParseArrayBegin, bind. rewrite Hv. reflexivity.
    + intros LookupStruct omit. unfold ParseMapBegin, bind.
      rewrite Hv. reflexivity.
    + intros g Hg.
      destruct g; try (exfalso; apply Hg; reflexivity);
        unfold call_getter, ParseBool, ParseInt, ParseUint, ParseFloat,
          ParseString, ParseBytes, ParseTime, ParseDuration, ParseError, bind;
        rewrite Hv; reflexivity.
    + unfold ParseArrayNext, bind, context_index_incr.
      destruct (slice_last (ctx p)); [|reflexivity].
      unfold pop. simpl. rewrite Hs. reflexivity.
    + unfold ParseMapNext, bind, context_index_incr.
      destruct (slice_last (ctx p)); [|reflexivity].
      unfold pop. simpl. rewrite Hs. reflexivity.
    + unfold ParseMapValue, bind, context, lift.
      destruct (slice_last (ctx p)); [|reflexivity].
      unfold pop. rewrite Hs. reflexivity.
Qed.

Lemma calls_out_of_place_panic_witness :
  (ParseArrayEnd (NewValueParser (Some demo.ints123)) = Panic /\
   ParseMapEnd (NewValueParser (Some demo.ints123)) = Panic /\
   ParseArrayNext (NewValueParser (Some demo.ints123)) = Panic /\
   ParseMapNext (NewValueParser (Some demo.ints123)) = Panic /\
   ParseMapValue (NewValueParser (Some demo.ints123)) = Panic) /\
  ParseType {| stack := []; ctx := [] |} = Panic.
Proof.
  destruct calls_out_of_place_panic as [H1 H2]. split.
  - apply H1. reflexivity.
  - apply (H2 {| stack := []; ctx := [] |}). reflexivity.
Defined.

(** X14: on a value that is no array, slice or string, [ParseArrayBegin]
    panics unless [Len] of the value is 0.  [Len] panics on a scalar, a
    struct, a nil value and a pointer to anything but an array; [Index]
    panics on a map or channel that is not empty and on a pointer to an
    array that is not empty.  When [Len] is 0 (an empty map or channel,
    or a pointer, nil or not, to an array of length 0) the call returns 0
    with no error and leaves a new context and no new value. *)
Theorem ParseArrayBegin_panics_off_sequences
    (p : ValueParser) (v : reflect.Value) :
  value p = Ok (v, p) ->
  ~ In (reflect.Value_Kind v)
       [reflect.Array; reflect.Slice; reflect.String] ->
  (reflect.Value_Len v <> Ok 0 -> ParseArrayBegin p = Panic) /\
  (reflect.Value_Len v = Ok 0 ->
   ParseArrayBegin p
   = Ok ((0, nil_error),
         {| stack := stack p;
            ctx := ctx p ++ [new_context 0 v None []] |})).
Proof.
  intros Hv Hk. split.
  - intros Hl. unfold ParseArrayBegin, bind. rewrite Hv.
    unfold lift.
    destruct (reflect.Value_Len v) as [n|] eqn:En; [|reflexivity].
    assert (Hn : (n =? 0) = false)
      by (apply Z.eqb_neq; intros ->; apply Hl; reflexivity).
    unfold pushContext. cbv beta iota. rewrite Hn.
    destruct v as [| | k | k | k | | | | | | | | k]; try destruct k;
      simpl in Hk; try (exfalso; tauto); try discriminate En; reflexivity.
  - intros Hl. unfold ParseArrayBegin, bind. rewrite Hv.
    unfold lift. rewrite Hl. reflexivity.
Qed.

Lemma ParseArrayBegin_panics_off_sequences_witness :
  ParseArrayBegin (NewValueParser (Some demo.map_a1)) = Panic /\
  ParseArrayBegin (NewValueParser (Some demo.record)) = Panic /\
  ParseArrayBegin (NewValueParser (Some demo.nil_int_ptr)) = Panic /\
  ParseArrayBegin (NewValueParser (Some demo.nil_array3_ptr)) = Panic /\
  ParseArrayBegin (NewValueParser (Some demo.nil_array0_ptr))
  = Ok ((0, nil_error),
        {| stack := stack (NewValueParser (Some demo.nil_array0_ptr));
           ctx := ctx (NewValueParser (Some demo.nil_array0_ptr)) ++
                  [new_context 0 demo.nil_array0_ptr None []] |}).
Proof.
  split; [|split; [|split; [|split]]].
  - apply (@ParseArrayBegin_panics_off_sequences
             (NewValueParser (Some demo.map_a1)) demo.map_a1).
    + reflexivity.
    + simpl. intros [H|[H|[H|[]]]]; discriminate H.
    + discriminate.
  - apply (@ParseArrayBegin_panics_off_sequences
             (NewValueParser (Some demo.record)) demo.record).
    + reflexivity.
    + simpl. intros [H|[H|[H|[]]]]; discriminate H.
    + discriminate.
  - apply (@ParseArrayBegin_panics_off_sequences
             (NewValueParser (Some demo.nil_int_ptr)) demo.nil_int_ptr).
    + reflexivity.
    + simpl. intros [H|[H|[H|[]]]]; discriminate H.
    + discriminate.
  - apply (@ParseArrayBegin_panics_off_sequences
             (NewValueParser (Some demo.nil_array3_ptr))
             demo.nil_array3_ptr).
    + reflexivity.
    + simpl. intros [H|[H|[H|[]]]]; discriminate H.
    + discriminate.
  - apply (@ParseArrayBegin_panics_off_sequences
             (NewValueParser (Some demo.nil_array0_ptr))
             demo.nil_array0_ptr).
    + reflexivity.
    + simpl. intros [H|[H|[H|[]]]]; discriminate H.
    + reflexivity.
Defined.

(** X15: no call of the array and map protocol ever returns an error:
    when a [Begin], [Next], [ParseMapValue] or [End] returns, its error
    result is nil, so neither a fault nor the end of a sequence is
    reported through it. *)
Theorem composite_calls_never_return_an_error
    (LookupStruct : reflect.rtype -> Struct)
    (omit : StructField -> reflect.Value -> bool)
    (p p' : ValueParser) (n : Z) (e : error) :
  ParseArrayBegin p = Ok ((n, e), p') \/
  ParseMapBegin LookupStruct omit p = Ok ((n, e), p') \/
  ParseArrayNext p = Ok (e, p') \/
  ParseMapNext p = Ok (e, p') \/
  ParseMapValue p = Ok (e, p') \/
  ParseArrayEnd p = Ok (e, p') \/
  ParseMapEnd p = Ok (e, p') ->
  e = nil_error.
Proof.
  intros [H|[H|[H|[H|[H|[H|H]]]]]].
  - apply ParseArrayBegin_inv in H. destruct H as (c & _ & _ & He).
    exact He.
  - unfold ParseMapBegin in H. minv;
      match goal with E : (_, _) = (_, _) |- _ => inversion E end;
      reflexivity.
  - eapply composite_nil_error. left. exact H.
  - eapply composite_nil_error. right. right. exact H.
  - eapply composite_nil_error. right. left. exact H.
  - apply ParseEnd_inv in H. destruct H as (c & _ & _ & _ & He). exact He.
  - rewrite ParseMapEnd_eq in H. apply ParseEnd_inv in H.
    destruct H as (c & _ & _ & _ & He). exact He.
Qed.

Lemma composite_calls_never_return_an_error_witness :
  nil_error = nil_error.
Proof.
  apply (@composite_calls_never_return_an_error
           demo.LookupStruct demo.omit
           (NewValueParser (Some demo.ints123)) demo.in_ints123 3 nil_error).
  left. reflexivity.
Defined.
